(** * AnonX: the download, decrypt and repair pipeline

    A shallow embedding of [src/helpers/_dl_helper.py] and
    [src/helpers/_api.py], and the properties of the pipeline proved on it.

    Conventions.
    - A byte is a [Z] in [0, 256); the content of a file is a [list Z].
    - Python strings are [string]; [str.lower] acts on the letters A-Z.
    - The file system maps a path to what it names. The directories above
      a path are not recorded: no operation asks for them or makes them.
    - An [async def] is run to completion at each [await]: one download is
      one sequential task, so it is a computation in the monad [M] below
      (a world state, and either a value or a raised exception).
    - What the repository imports from outside its sources (the HTTP client,
      the AES block cipher, the zip reader, ffmpeg, the dataclasses, the
      configuration, the policy of the operating system) is a field of the
      record [World], over which every statement is quantified.

    Part I is the model, Part II the proofs. *)

From Stdlib Require Import ZArith Lia List Ascii String.
From stdpp Require Import gmap strings list pretty.

Local Open Scope string_scope.
Local Open Scope list_scope.
Local Open Scope stdpp_scope.

(** * Part I: the model *)

(** ** Bytes *)

Module Bytes.

(** A [b"..."] literal of the source, byte by byte. *)
Definition of_string (s : string) : list Z :=
  map (fun c => Z.of_nat (nat_of_ascii c)) (list_ascii_of_string s).

(** [n.to_bytes(len, "little")]. *)
Fixpoint le_bytes (len : nat) (n : Z) : list Z :=
  match len with
  | O => []
  | S len' => Z.land n 255 :: le_bytes len' (Z.shiftr n 8)
  end.

(** [n.to_bytes(len, "big")]. *)
Definition be_bytes (len : nat) (n : Z) : list Z := rev (le_bytes len n).

(** [int.from_bytes(bs, "big")]. *)
Definition from_be_bytes (bs : list Z) : Z :=
  fold_left (fun acc b => Z.lor (Z.shiftl acc 8) b) bs 0%Z.

Definition is_space (c : ascii) : bool :=
  let n := nat_of_ascii c in
  (n =? 32)%nat || ((9 <=? n)%nat && (n <=? 13)%nat).

Definition hex_digit (c : ascii) : option Z :=
  let n := nat_of_ascii c in
  if (48 <=? n)%nat && (n <=? 57)%nat then Some (Z.of_nat (n - 48))
  else if (97 <=? n)%nat && (n <=? 102)%nat then Some (Z.of_nat (n - 87))
  else if (65 <=? n)%nat && (n <=? 70)%nat then Some (Z.of_nat (n - 55))
  else None.

(** [bytes.fromhex]: two hexadecimal digits a byte, ASCII white space
    between bytes skipped; [None] stands for its [ValueError]. *)
Fixpoint fromhex_chars (l : list ascii) : option (list Z) :=
  match l with
  | [] => Some []
  | c :: l' =>
      if is_space c then fromhex_chars l'
      else match l' with
           | [] => None
           | d :: l'' =>
               match hex_digit c, hex_digit d with
               | Some hi, Some lo =>
                   option_map (cons (16 * hi + lo)%Z) (fromhex_chars l'')
               | _, _ => None
               end
           end
  end.

Definition fromhex (s : string) : option (list Z) :=
  fromhex_chars (list_ascii_of_string s).

(** What a positioned [write] does to the content of a file opened ["r+b"]:
    the bytes from [p] on are overwritten, the file grows when the data runs
    past its end, and a position beyond the end leaves a hole of zeros. *)
Definition write_at (p : nat) (data f : list Z) : list Z :=
  let f' := f ++ repeat 0%Z (p - length f) in
  firstn p f' ++ data ++ skipn (p + length data) f'.

End Bytes.

(** ** Python strings and paths *)

Module Py.

Definition lower_ascii (c : ascii) : ascii :=
  let n := nat_of_ascii c in
  if (65 <=? n)%nat && (n <=? 90)%nat then ascii_of_nat (n + 32) else c.

(** [s.lower()]. *)
Fixpoint lower (s : string) : string :=
  match s with
  | EmptyString => EmptyString
  | String c s' => String (lower_ascii c) (lower s')
  end.

(** [needle in s] on strings. *)
Fixpoint contains (needle s : string) : bool :=
  String.prefix needle s ||
  match s with
  | EmptyString => false
  | String _ s' => contains needle s'
  end.

(** [s.startswith(p)] is [String.prefix p s]; [s.endswith(suffix)]. *)
Definition endswith (suffix s : string) : bool :=
  let n := String.length s in
  let k := String.length suffix in
  (k <=? n)%nat && String.eqb (String.substring (n - k) k s) suffix.

(** Truth value of a string, and of an attribute that may be [None]. *)
Definition truthy (s : string) : bool := negb (String.eqb s "").

Definition truthy_opt (o : option string) : bool :=
  match o with
  | Some s => truthy s
  | None => false
  end.

(** [s.lstrip("/")]. *)
Fixpoint lstrip_slash (s : string) : string :=
  match s with
  | String "/" s' => lstrip_slash s'
  | _ => s
  end.

(** [os.path.join(a, b)] on POSIX paths. *)
Definition path_join (a b : string) : string :=
  if String.prefix "/" b then b
  else if String.eqb a "" || endswith "/" a then a +:+ b
  else a +:+ "/" +:+ b.

(** Index of the last occurrence of the character [c], as [str.rfind]. *)
Fixpoint rfind (c : ascii) (s : string) : option nat :=
  match s with
  | EmptyString => None
  | String d s' =>
      match rfind c s' with
      | Some i => Some (S i)
      | None => if Ascii.eqb c d then Some 0%nat else None
      end
  end.

(** The final component of a path. *)
Definition basename (p : string) : string :=
  match rfind "/" p with
  | Some i => String.substring (S i) (String.length p - S i) p
  | None => p
  end.

(** [Path(p).suffix]: the last dot of the final component and what follows
    it, unless that dot starts or ends the component. *)
Definition suffix (p : string) : string :=
  let name := basename p in
  match rfind "." name with
  | Some i =>
      if (0 <? i)%nat && (i <? String.length name - 1)%nat
      then String.substring i (String.length name - i) name
      else ""
  | None => ""
  end.

End Py.

(** POSIX paths as [zipfile], [os.path] and [pathlib] take them apart. *)
Module Posix.

(** [s.split("/")]. *)
Fixpoint split (s : string) : list string :=
  match s with
  | EmptyString => [""]
  | String c s' =>
      if Ascii.eqb c "/" then "" :: split s'
      else match split s' with
           | comp :: comps => String c comp :: comps
           | [] => [String c ""]
           end
  end.

(** ["/".join(comps)]. *)
Fixpoint join (comps : list string) : string :=
  match comps with
  | [] => ""
  | comp :: rest =>
      match rest with
      | [] => comp
      | _ => comp +:+ "/" +:+ join rest
      end
  end.

(** The name under which [ZipFile.extract] stores a member: the name of
    the member without its empty, [.] and [..] components, so that it is
    relative and stays below the directory it is extracted to. *)
Definition arcname (filename : string) : string :=
  join (List.filter
          (fun x => negb (String.eqb x "" || String.eqb x "."
                          || String.eqb x ".."))
          (split filename)).

(** The slashes a path starts with, as POSIX counts them: two are kept,
    three or more are one. *)
Definition initial_slashes (path : string) : nat :=
  if String.prefix "/" path
  then if String.prefix "//" path && negb (String.prefix "///" path)
       then 2 else 1
  else 0.

(** One turn of the loop of [os.path.normpath]; [new_comps] is kept with
    its last component first. *)
Definition normpath_step (initial : nat) (new_comps : list string)
    (comp : string) : list string :=
  if String.eqb comp "" || String.eqb comp "." then new_comps
  else if negb (String.eqb comp "..")
          || (Nat.eqb initial 0
              && match new_comps with [] => true | _ => false end)
          || match new_comps with
             | last :: _ => String.eqb last ".."
             | [] => false
             end
  then comp :: new_comps
  else match new_comps with
       | _ :: popped => popped
       | [] => []
       end.

(** [os.path.normpath(path)]. *)
Definition normpath (path : string) : string :=
  if String.eqb path "" then "."
  else
    let initial := initial_slashes path in
    let comps := rev (fold_left (normpath_step initial) (split path) []) in
    let p := string_of_list_ascii (repeat "/"%char initial) +:+ join comps in
    if String.eqb p "" then "." else p.

(** Where [zip_ref.extract(file_name, path=directory)] writes the member. *)
Definition zip_target (directory file_name : string) : string :=
  normpath (Py.path_join directory (arcname file_name)).

(** [str(Path(a) / b)]: the components of the joined path that are
    neither empty nor [.], behind its root. *)
Definition pathlib_join (a b : string) : string :=
  let path := Py.path_join a b in
  let comps :=
    List.filter (fun x => negb (String.eqb x "" || String.eqb x "."))
      (split path) in
  let p :=
    string_of_list_ascii (repeat "/"%char (initial_slashes path))
    +:+ join comps in
  if String.eqb p "" then "." else p.

End Posix.


(** ** Python values, exceptions and results *)

#[local] Unset Elimination Schemes.

(** A decoded JSON document, as the HTTP client hands it over; [JNull] is
    [None]. A mapping keeps its items in order. *)
Inductive json :=
  | JNull
  | JBool (b : bool)
  | JNum (n : Z)
  | JStr (s : string)
  | JList (items : list json)
  | JDict (items : list (string * json)).

#[local] Set Elimination Schemes.

(** The exceptions that occur; [PyException] is [raise Exception(msg)] of
    the source, [ClientError] whatever the HTTP client raises. *)
Inductive exn :=
  | FileNotFoundError (path : string)
  | IsADirectoryError (path : string)
  | PermissionError (path : string)
  | ValueError (msg : string)
  | TypeError (msg : string)
  | KeyError (key : string)
  | BadZipFile (path : string)
  | CalledProcessError (returncode : Z) (cmd : string)
  | ClientError (msg : string)
  | PyException (msg : string).

(** [str(e)], as it enters a log line. *)
Definition exn_str (e : exn) : string :=
  match e with
  | FileNotFoundError p => "No such file or directory: " +:+ p
  | IsADirectoryError p => "Is a directory: " +:+ p
  | PermissionError p => "Permission denied: " +:+ p
  | ValueError m | TypeError m | ClientError m | PyException m => m
  | KeyError k => k
  | BadZipFile _ => "File is not a zip file"
  | CalledProcessError _ cmd =>
      "Command " +:+ cmd +:+ " returned non-zero exit status"
  end.

Inductive result (A : Type) :=
  | Ok (a : A)
  | Raise (e : exn).
Arguments Ok {A} a.
Arguments Raise {A} e.

#[global] Instance result_ret : MRet result := fun A a => Ok a.

#[global] Instance result_bind : MBind result := fun A B k r =>
  match r with
  | Ok a => k a
  | Raise e => Raise e
  end.

Module PyVal.

(** [bool(v)]. *)
Definition truthy (v : json) : bool :=
  match v with
  | JNull => false
  | JBool b => b
  | JNum n => negb (n =? 0)%Z
  | JStr s => Py.truthy s
  | JList [] | JDict [] => false
  | JList (_ :: _) | JDict (_ :: _) => true
  end.

Definition is_dict (v : json) : bool :=
  match v with
  | JDict _ => true
  | _ => false
  end.

Definition is_str (s : string) (v : json) : bool :=
  match v with
  | JStr s' => String.eqb s s'
  | _ => false
  end.

(** [d.get(key)] on the items of a mapping. *)
Fixpoint lookup (key : string) (items : list (string * json)) : option json :=
  match items with
  | [] => None
  | (k, v) :: rest => if String.eqb key k then Some v else lookup key rest
  end.

Definition has_key (key : string) (items : list (string * json)) : bool :=
  existsb (fun kv => String.eqb key (fst kv)) items.

(** [key in v] for a string [key]. *)
Definition contains (key : string) (v : json) : result bool :=
  match v with
  | JDict items => Ok (has_key key items)
  | JList items => Ok (existsb (is_str key) items)
  | JStr s => Ok (Py.contains key s)
  | JNull | JBool _ | JNum _ => Raise (TypeError "argument is not iterable")
  end.

(** [v[key]] for a string [key]. *)
Definition getitem (key : string) (v : json) : result json :=
  match v with
  | JDict items =>
      match lookup key items with
      | Some x => Ok x
      | None => Raise (KeyError key)
      end
  | JList _ | JStr _ => Raise (TypeError "indices must be integers")
  | JNull | JBool _ | JNum _ => Raise (TypeError "object is not subscriptable")
  end.

Fixpoint chars (s : string) : list json :=
  match s with
  | EmptyString => []
  | String c s' => JStr (String c EmptyString) :: chars s'
  end.

(** What [for x in v] goes through. *)
Definition iter (v : json) : result (list json) :=
  match v with
  | JList items => Ok items
  | JDict items => Ok (map (fun kv => JStr (fst kv)) items)
  | JStr s => Ok (chars s)
  | JNull | JBool _ | JNum _ => Raise (TypeError "object is not iterable")
  end.

End PyVal.

(** ** The world: file system, trace, and what lies outside the sources *)

(** A path names a regular file or a directory. *)
Inductive node :=
  | File (data : list Z)
  | Dir.

Inductive level := INFO | WARNING | ERROR.

(** What a run does that can be observed from outside, in order. *)
Inductive event :=
  | EvRequest (url : string) (params : list (string * string))
  | EvDownload (url : string) (dest : option string)
  | EvOpen (path mode : string)
  | EvCipher (nbytes : nat)
  | EvExec (argv : list string)
  | EvExtract (archive member : string)
  | EvRemove (path : string)
  | EvLog (lvl : level) (fmt : string) (args : list string).

Record state := {
  fs : gmap string node;
  trace : list event
}.

(** The [DownloadResult] of the HTTP client: a path if and only if the
    download succeeded, an error message otherwise. *)
Inductive DownloadResult :=
  | Downloaded (file_path : string)
  | Failed (error : string).

Definition success (r : DownloadResult) : bool :=
  match r with
  | Downloaded _ => true
  | Failed _ => false
  end.

(** What one call of [HttpxClient.download_file] does. *)
Inductive download_outcome :=
  | DlRaises (e : exn)
  | DlFails (error : string)
  | DlSaves (file_path : string) (data : list Z).

(** One member of a zip archive; [member_data] is [None] when reading the
    member out raises. *)
Record zip_entry := {
  member_name : string;
  member_data : option (list Z)
}.

(** What one run of the ffmpeg subprocess does: it cannot be started, or it
    exits with a return code, having written the output file or not. *)
Inductive ffmpeg_outcome :=
  | FfNotStarted (e : exn)
  | FfExits (returncode : Z) (stderr : string) (written : option (list Z)).

(** The collaborators of the pipeline.
    - [DOWNLOADS_DIR]: [config.DOWNLOADS_DIR].
    - [make_request], [download_file]: the two operations of [HttpxClient].
    - [aes_encrypt key block]: the AES block cipher of [Crypto.Cipher.AES].
    - [zip_members]: the members of an archive, [None] when [zipfile]
      rejects the file.
    - [ffmpeg files argv]: the subprocess.
    - [remove_denied path]: whether the operating system refuses to unlink
      the regular file at [path].
    - [MusicTrack_accepts kwargs]: whether the constructor of the dataclass
      [MusicTrack] accepts the mapping [kwargs] as its keyword arguments.
    - [url_pattern_match url]: whether [re] matches one of [URL_PATTERNS]. *)
Record World := {
  DOWNLOADS_DIR : string;
  make_request : string -> list (string * string) -> result json;
  download_file : string -> option string -> download_outcome;
  aes_encrypt : list Z -> list Z -> list Z;
  zip_members : list Z -> option (list zip_entry);
  ffmpeg : gmap string node -> list string -> ffmpeg_outcome;
  remove_denied : string -> bool;
  MusicTrack_accepts : list (string * json) -> bool;
  url_pattern_match : string -> bool
}.

(** ** Computations *)

Definition M (A : Type) : Type := state -> result A * state.

#[global] Instance M_ret : MRet M := fun A a s => (Ok a, s).

#[global] Instance M_bind : MBind M := fun A B k m s =>
  match m s with
  | (Ok a, s') => k a s'
  | (Raise e, s') => (Raise e, s')
  end.

(** [raise e]. *)
Definition throw {A} (e : exn) : M A := fun s => (Raise e, s).

(** [try: body / except Exception as e: handler e]. *)
Definition try_except {A} (body : M A) (handler : exn -> M A) : M A :=
  fun s =>
    match body s with
    | (Ok a, s') => (Ok a, s')
    | (Raise e, s') => handler e s'
    end.

Definition emit (e : event) : M unit :=
  fun s => (Ok tt, {| fs := fs s; trace := trace s ++ [e] |}).

Definition log (lvl : level) (fmt : string) (args : list string) : M unit :=
  emit (EvLog lvl fmt args).

Definition lift {A} (r : result A) : M A := fun s => (r, s).

Definition get_fs : M (gmap string node) := fun s => (Ok (fs s), s).

Definition set_node (path : string) (n : node) : M unit :=
  fun s => (Ok tt, {| fs := <[path := n]> (fs s); trace := trace s |}).

(** [os.path.exists(path)]. *)
Definition path_exists (path : string) : M bool :=
  fun s => (Ok (match fs s !! path with Some _ => true | None => false end), s).

(** [open(path, mode)] of an existing file, for ["rb"] and ["r+b"]: its
    content. *)
Definition open_existing (path mode : string) : M (list Z) :=
  emit (EvOpen path mode);;
  files ← get_fs;
  match files !! path with
  | Some (File data) => mret data
  | Some Dir => throw (IsADirectoryError path)
  | None => throw (FileNotFoundError path)
  end.

(** [open(path, "wb")]: the file is created, or emptied. *)
Definition open_truncate (path : string) : M unit :=
  emit (EvOpen path "wb");;
  files ← get_fs;
  match files !! path with
  | Some Dir => throw (IsADirectoryError path)
  | _ => set_node path (File [])
  end.

(** [os.remove(path)]. *)
Definition os_remove (w : World) (path : string) : M unit :=
  emit (EvRemove path);;
  files ← get_fs;
  match files !! path with
  | None => throw (FileNotFoundError path)
  | Some Dir => throw (IsADirectoryError path)
  | Some (File _) =>
      if remove_denied w path then throw (PermissionError path)
      else fun s => (Ok tt, {| fs := delete path (fs s); trace := trace s |})
  end.

(** [await client.download_file(url, dest)]. *)
Definition client_download_file (w : World) (url : string)
    (dest : option string) : M DownloadResult :=
  emit (EvDownload url dest);;
  match download_file w url dest with
  | DlRaises e => throw e
  | DlFails err => mret (Failed err)
  | DlSaves path data => set_node path (File data);; mret (Downloaded path)
  end.

(** [await client.make_request(url, params)]. *)
Definition client_make_request (w : World) (url : string)
    (params : list (string * string)) : M json :=
  emit (EvRequest url params);;
  lift (make_request w url params).

(** [path.write_bytes(data)]: the file at [path] becomes [data]. *)
Definition write_file (path : string) (data : list Z) : M unit :=
  files ← get_fs;
  match files !! path with
  | Some Dir => throw (IsADirectoryError path)
  | _ => set_node path (File data)
  end.

(** [await f.write(data)] on a file opened for writing at its end. *)
Definition append_file (path : string) (data : list Z) : M unit :=
  files ← get_fs;
  match files !! path with
  | Some (File old) => set_node path (File (old ++ data))
  | _ => set_node path (File data)
  end.

(** ** [_dl_helper.py]: container repair *)

(** A file opened ["r+b"]: its content and the position of the next
    write. *)
Record ogg_handle := {
  content : list Z;
  position : nat
}.

Definition seek (n : nat) (h : ogg_handle) : ogg_handle :=
  {| content := content h; position := n |}.

Definition write (data : list Z) (h : ogg_handle) : ogg_handle :=
  {| content := Bytes.write_at (position h) data (content h);
     position := position h + length data |}.

(** The body of the [async with] of [rebuild_ogg], write by write. *)
Definition rebuild_ogg_writes (ogg_file : ogg_handle) : ogg_handle :=
  let ogg_s := Bytes.of_string "OggS" in
  let zeroes := repeat 0%Z 10 in
  let vorbis_start := [1; 30; 1]%Z ++ Bytes.of_string "vorbis" in
  let channels := [2]%Z in
  let sample_rate := [68; 172; 0; 0]%Z in
  let bit_rate := [0; 226; 4; 0]%Z in
  let packet_sizes := [184; 1]%Z in
  let ogg_file := seek 0 ogg_file in
  let ogg_file := write ogg_s ogg_file in
  let ogg_file := seek 6 ogg_file in
  let ogg_file := write zeroes ogg_file in
  let ogg_file := seek 26 ogg_file in
  let ogg_file := write vorbis_start ogg_file in
  let ogg_file := seek 39 ogg_file in
  let ogg_file := write channels ogg_file in
  let ogg_file := seek 40 ogg_file in
  let ogg_file := write sample_rate ogg_file in
  let ogg_file := seek 48 ogg_file in
  let ogg_file := write bit_rate ogg_file in
  let ogg_file := seek 56 ogg_file in
  let ogg_file := write packet_sizes ogg_file in
  let ogg_file := seek 58 ogg_file in
  let ogg_file := write ogg_s ogg_file in
  let ogg_file := seek 62 ogg_file in
  write zeroes ogg_file.

(** The content of the file once [rebuild_ogg] has closed it. *)
Definition rebuild_ogg_bytes (data : list Z) : list Z :=
  content (rebuild_ogg_writes {| content := data; position := 0 |}).

Definition rebuild_ogg (filename : string) : M unit :=
  found ← path_exists filename;
  if negb found then log ERROR "Error: %s not found." [filename]
  else
    try_except
      (data ← open_existing filename "r+b";
       set_node filename (File (rebuild_ogg_bytes data)))
      (fun e =>
         log ERROR "Error rebuilding OGG file %s: %s" [filename; exn_str e]).

(** The table of section 4.3 of the specification, row by row: an offset
    and the bytes written there. The specification names the third and the
    seventh value without spelling them out; they are the constants
    [vorbis_start] and [packet_sizes] of the source. *)
Definition repair_table : list (nat * list Z) :=
  [ (0, Bytes.of_string "OggS");
    (6, repeat 0%Z 10);
    (26, [1; 30; 1]%Z ++ Bytes.of_string "vorbis");
    (39, [2]%Z);
    (40, Bytes.le_bytes 4 44100);
    (48, Bytes.le_bytes 4 320000);
    (56, [184; 1]%Z);
    (58, Bytes.of_string "OggS");
    (62, repeat 0%Z 10) ]%nat.

(** The rows of a table written one after the other, first row first. *)
Definition apply_table (table : list (nat * list Z)) (data : list Z)
    : list Z :=
  fold_left (fun d row => Bytes.write_at (fst row) (snd row) d) table data.

(** The byte a table leaves at offset [i], if a row covers it (the last
    such row, as later writes land on earlier ones). *)
Fixpoint table_byte (table : list (nat * list Z)) (i : nat) : option Z :=
  match table with
  | [] => None
  | (off, bytes) :: rest =>
      match table_byte rest i with
      | Some b => Some b
      | None =>
          if (off <=? i)%nat && (i <? off + length bytes)%nat
          then Some (nth (i - off) bytes 0%Z)
          else None
      end
  end.

(** The extent of a table: the least length of a file it has been
    applied to. *)
Definition table_extent (table : list (nat * list Z)) : nat :=
  fold_right (fun row n => Nat.max (fst row + length (snd row)) n) 0%nat table.

(** ** [_dl_helper.py]: [SpotifyDownload] *)

(** Modelled from the spec: the dataclass [TrackInfo] of [_dataclass.py],
    with the fields the pipeline reads. An attribute that may be [None] is
    an [option]. *)
Module Track.
Record TrackInfo := {
  platform : string;
  id : option string;
  url : string;
  cdnurl : option string;
  key : option string;
  tc : string
}.
End Track.
Abbreviation TrackInfo := Track.TrackInfo.

Definition encrypted_file (w : World) (track : TrackInfo) : string :=
  Py.path_join (DOWNLOADS_DIR w) (Track.tc track +:+ ".encrypted.ogg").

Definition decrypted_file (w : World) (track : TrackInfo) : string :=
  Py.path_join (DOWNLOADS_DIR w) (Track.tc track +:+ ".decrypted.ogg").

Definition output_file (w : World) (track : TrackInfo) : string :=
  Py.path_join (DOWNLOADS_DIR w) (Track.tc track +:+ ".ogg").

(** *** The stream cipher *)

(** The state of an [AES.MODE_CTR] cipher object under a given key: the
    value of its 128-bit counter and the bytes of the current key stream
    block that are not used yet. *)
Record cipher := {
  counter : Z;
  keystream : list Z
}.

(** [AES.new(key, AES.MODE_CTR, counter=Counter.new(128, initial_value))]. *)
Definition AES_new (aes_key : list Z) (initial_value : Z) : result cipher :=
  if existsb (Nat.eqb (length aes_key)) [16; 24; 32]%nat
  then Ok {| counter := initial_value; keystream := [] |}
  else Raise (ValueError "Incorrect AES key length").

(** One byte through the cipher: a new key stream block is the encryption
    of the big-endian counter, which then steps modulo [2^128]. Encryption
    and decryption are this same operation. *)
Definition cipher_byte (w : World) (aes_key : list Z) (c : cipher) (b : Z)
    : cipher * Z :=
  match keystream c with
  | k :: ks => ({| counter := counter c; keystream := ks |}, Z.lxor b k)
  | [] =>
      let block := aes_encrypt w aes_key (Bytes.be_bytes 16 (counter c)) in
      ({| counter := ((counter c + 1) mod 2 ^ 128)%Z; keystream := tl block |},
       Z.lxor b (hd 0%Z block))
  end.

(** [cipher.decrypt(chunk)] (and [cipher.encrypt(chunk)]): the cipher
    afterwards and the bytes returned. *)
Fixpoint cipher_decrypt (w : World) (aes_key : list Z) (c : cipher)
    (chunk : list Z) : cipher * list Z :=
  match chunk with
  | [] => (c, [])
  | b :: rest =>
      let '(c1, o) := cipher_byte w aes_key c b in
      let '(c2, os) := cipher_decrypt w aes_key c1 rest in
      (c2, o :: os)
  end.

(** [cipher.encrypt(data)]: in counter mode the same operation on the cipher
    object as [cipher.decrypt], the exclusive or with the key stream. *)
Definition cipher_encrypt (w : World) (aes_key : list Z) (c : cipher)
    (data : list Z) : cipher * list Z :=
  cipher_decrypt w aes_key c data.

(** Counter mode as the standard writes it, on a whole message. The key
    stream is the encryption of the successive values of the counter, each
    as a 16-byte big-endian block. *)
Fixpoint ctr_keystream (w : World) (aes_key : list Z) (ctr : Z)
    (nblocks : nat) : list Z :=
  match nblocks with
  | O => []
  | S n =>
      aes_encrypt w aes_key (Bytes.be_bytes 16 ctr) ++
      ctr_keystream w aes_key ((ctr + 1) mod 2 ^ 128)%Z n
  end.

(** The exclusive or of a message with a key stream at least as long. *)
Fixpoint xor_bytes (data ks : list Z) : list Z :=
  match data, ks with
  | b :: data', k :: ks' => Z.lxor b k :: xor_bytes data' ks'
  | _, _ => []
  end.

(** AES-CTR encryption of [plaintext] under a key and an initial counter
    value. As many blocks as the message has bytes are more key stream than
    it needs; [xor_bytes] stops with the message. *)
Definition ctr_encrypt (w : World) (aes_key : list Z) (initial_value : Z)
    (plaintext : list Z) : list Z :=
  xor_bytes plaintext
    (ctr_keystream w aes_key initial_value (length plaintext)).

(** A stream sent through one cipher object chunk after chunk. *)
Fixpoint decrypt_chunks (w : World) (aes_key : list Z) (c : cipher)
    (chunks : list (list Z)) : cipher * list Z :=
  match chunks with
  | [] => (c, [])
  | chunk :: rest =>
      let '(c1, o) := cipher_decrypt w aes_key c chunk in
      let '(c2, os) := decrypt_chunks w aes_key c1 rest in
      (c2, o ++ os)
  end.

Definition chunk_size : nat := 8 * 1024.

Definition iv_hex : string := "72e067fbddcbcf77ebe8bc643f630d93".

(** The cipher object [decrypt_audio] starts from: the counter is the fixed
    initialization vector read as a big-endian integer. *)
Definition initial_cipher : cipher :=
  {| counter := Bytes.from_be_bytes
                  [114; 224; 103; 251; 221; 203; 207; 119;
                   235; 232; 188; 100; 63; 99; 13; 147]%Z;
     keystream := [] |}.

(** The [while chunk := await fin.read(chunk_size)] loop; [fin] is what is
    left to read. Each turn reads at least one byte, so a fuel beyond the
    length of [fin] is never used up. *)
Fixpoint decrypt_loop (w : World) (aes_key : list Z) (fuel : nat)
    (c : cipher) (fin : list Z) (fout : string) : M unit :=
  match fuel with
  | O => mret tt
  | S fuel' =>
      match firstn chunk_size fin with
      | [] => mret tt
      | chunk =>
          emit (EvCipher (length chunk));;
          let '(c', decrypted_chunk) := cipher_decrypt w aes_key c chunk in
          append_file fout decrypted_chunk;;
          decrypt_loop w aes_key fuel' c' (skipn chunk_size fin) fout
      end
  end.

Definition fromhex_or_raise (s : option string) : result (list Z) :=
  match s with
  | None => Raise (TypeError "fromhex() argument must be str")
  | Some hex =>
      match Bytes.fromhex hex with
      | Some bs => Ok bs
      | None => Raise (ValueError "non-hexadecimal number found in fromhex()")
      end
  end.

Definition decrypt_audio (w : World) (track : TrackInfo) : M unit :=
  try_except
    (aes_key ← lift (fromhex_or_raise (Track.key track));
     iv ← lift (fromhex_or_raise (Some iv_hex));
     let iv_int := Bytes.from_be_bytes iv in
     c ← lift (AES_new aes_key iv_int);
     fin ← open_existing (encrypted_file w track) "rb";
     open_truncate (decrypted_file w track);;
     decrypt_loop w aes_key (S (length fin)) c fin (decrypted_file w track))
    (fun e => log ERROR "Error decrypting audio file: %s" [exn_str e];;
              throw e).

(** *** Repack, cleanup, archive extraction *)

Definition fix_audio (w : World) (track : TrackInfo) : M unit :=
  try_except
    (let argv := ["ffmpeg"; "-i"; decrypted_file w track; "-c"; "copy";
                  output_file w track] in
     emit (EvExec argv);;
     files ← get_fs;
     match ffmpeg w files argv with
     | FfNotStarted e => throw e
     | FfExits returncode stderr written =>
         (match written with
          | Some data => set_node (output_file w track) (File data)
          | None => mret tt
          end : M unit);;
         if negb (returncode =? 0)%Z
         then log ERROR "FFmpeg error: %s" [stderr];;
              throw (CalledProcessError returncode "ffmpeg")
         else mret tt
     end)
    (fun e => log ERROR "Error fixing audio file: %s" [exn_str e];;
              throw e).

(** The [for file in ...] loop of [_cleanup]. *)
Fixpoint cleanup_files (w : World) (files : list string) : M unit :=
  match files with
  | [] => mret tt
  | file :: rest =>
      try_except
        (found ← path_exists file;
         if (found : bool) then os_remove w file else mret tt)
        (fun e =>
           log WARNING "Error removing %s: %s" [file; exn_str e]);;
      cleanup_files w rest
  end.

Definition _cleanup (w : World) (track : TrackInfo) : M unit :=
  cleanup_files w [encrypted_file w track; decrypted_file w track].

(** [zip_ref.extract(file_name, path=config.DOWNLOADS_DIR)]: the member of
    that name (the last one, when a name occurs twice) is written below the
    download directory, at the path [zipfile] makes of its name. *)
Definition zip_extract (w : World) (zip_path : string)
    (members : list zip_entry) (file_name : string) : M unit :=
  emit (EvExtract zip_path file_name);;
  match find (fun e => String.eqb file_name (member_name e)) (rev members) with
  | None => throw (KeyError file_name)
  | Some e =>
      match member_data e with
      | None => throw (BadZipFile zip_path)
      | Some data =>
          write_file (Posix.zip_target (DOWNLOADS_DIR w) file_name) data
      end
  end.

(** The [for file_name in zip_ref.namelist()] loop of [_extract_zip]. A
    [Path] is the string it prints as. *)
Fixpoint extract_members (w : World) (zip_path : string)
    (members : list zip_entry) (namelist : list string)
    (extracted_files : list string) : M (list string) :=
  match namelist with
  | [] => mret extracted_files
  | file_name :: rest =>
      if Py.endswith ".mp3" file_name
      then zip_extract w zip_path members file_name;;
           extract_members w zip_path members rest
             (extracted_files
              ++ [Posix.pathlib_join (DOWNLOADS_DIR w) file_name])
      else extract_members w zip_path members rest extracted_files
  end.

Definition _extract_zip (w : World) (zip_path : string) : M (list string) :=
  try_except
    (archive ← open_existing zip_path "rb";
     members ← match zip_members w archive with
               | Some ms => mret ms
               | None => throw (BadZipFile zip_path)
               end;
     extracted_files ←
       extract_members w zip_path members (map member_name members) [];
     os_remove w zip_path;;
     log INFO "Extracted %d MP3 files from %s"
       [pretty (length extracted_files); zip_path];;
     mret extracted_files)
    (fun e => log ERROR "Error extracting ZIP %s: %s" [zip_path; exn_str e];;
              mret []).

(** *** The legacy path *)

(** The four steps of the legacy path, one after the other: the steps of
    the [try] block of [process_original] that come before [_cleanup]. *)
Definition pipeline (w : World) (track : TrackInfo) : M unit :=
  client_download_file w (default "" (Track.cdnurl track))
    (Some (encrypted_file w track));;
  decrypt_audio w track;;
  rebuild_ogg (decrypted_file w track);;
  fix_audio w track.

(** The [try] block of [process_original]. *)
Definition process_original_steps (w : World) (track : TrackInfo)
    : M (option string) :=
  client_download_file w (default "" (Track.cdnurl track))
    (Some (encrypted_file w track));;
  decrypt_audio w track;;
  rebuild_ogg (decrypted_file w track);;
  fix_audio w track;;
  _cleanup w track;;
  log INFO "Successfully processed track: %s" [output_file w track];;
  mret (Some (output_file w track)).

Definition process_original (w : World) (track : TrackInfo)
    : M (option string) :=
  found ← path_exists (output_file w track);
  if (found : bool)
  then log INFO "Found existing file: %s" [output_file w track];;
       mret (Some (output_file w track))
  else
    let _track_id := Track.tc track in
    if negb (Py.truthy_opt (Track.cdnurl track))
       || negb (Py.truthy_opt (Track.key track))
    then log WARNING "Missing CDN URL or key for track: %s" [_track_id];;
         mret None
    else
      try_except
        (process_original_steps w track)
        (fun e =>
           log ERROR "Error processing track %s: %s" [_track_id; exn_str e];;
           _cleanup w track;;
           mret None).

(** ** [_api.py]: [ApiData] *)

(** Modelled from the spec: the dataclasses [MusicTrack] and
    [PlatformTracks] of [_dataclass.py]. A track object is represented by
    the keyword arguments it was built from. *)
Record MusicTrack := {
  fields : list (string * json)
}.

Record PlatformTracks := {
  tracks : list MusicTrack
}.

(** The call of the constructor of [MusicTrack] on the items of the mapping
    [track]; a [TypeError] when the dataclass rejects them. *)
Definition MusicTrack_new (w : World) (track : json) : result MusicTrack :=
  match track with
  | JDict kwargs =>
      if MusicTrack_accepts w kwargs then Ok {| fields := kwargs |}
      else Raise (TypeError "MusicTrack() got unexpected arguments")
  | _ => Raise (TypeError "argument after ** must be a mapping")
  end.

(** The condition of the list comprehension of [_parse_tracks_response]:
    [track and isinstance(track, dict)]. *)
Definition entry_kept (track : json) : bool :=
  PyVal.truthy track && PyVal.is_dict track.

(** The track object built from an entry that is kept. *)
Definition track_of (track : json) : MusicTrack :=
  match track with
  | JDict kwargs => {| fields := kwargs |}
  | _ => {| fields := [] |}
  end.

(** The list comprehension of [_parse_tracks_response]. *)
Fixpoint valid_tracks (w : World) (results : list json)
    : result (list MusicTrack) :=
  match results with
  | [] => Ok []
  | track :: rest =>
      if entry_kept track
      then t ← MusicTrack_new w track;
           ts ← valid_tracks w rest;
           mret (t :: ts)
      else valid_tracks w rest
  end.

Definition _parse_tracks_response (w : World) (data : json)
    : result (option PlatformTracks) :=
  if negb (PyVal.truthy data) || negb (PyVal.is_dict data) then Ok None
  else
    has_results ← PyVal.contains "results" data;
    if negb has_results then Ok None
    else
      results ← PyVal.getitem "results" data;
      entries ← PyVal.iter results;
      valid ← valid_tracks w entries;
      match valid with
      | [] => Ok None
      | _ :: _ => Ok (Some {| tracks := valid |})
      end.

(** The attributes of an [ApiData] object after [__init__]. *)
Record ApiData := {
  query : option string;
  api_url : option string;
  api_key : option string
}.

Definition is_valid (w : World) (self : ApiData) (url : option string)
    : bool :=
  if negb (Py.truthy_opt url) || negb (Py.truthy_opt (api_url self))
     || negb (Py.truthy_opt (api_key self))
  then false
  else url_pattern_match w (default "" url).

Definition _make_api_request (w : World) (self : ApiData) (endpoint : string)
    (params : list (string * string)) : M json :=
  if negb (Py.truthy_opt (api_url self)) || negb (Py.truthy_opt (api_key self))
  then log ERROR "API configuration missing" [];;
       mret JNull
  else
    let url := default "" (api_url self) +:+ "/" +:+ Py.lstrip_slash endpoint in
    client_make_request w url params.

(** [self._parse_tracks_response(data) if data else None]. *)
Definition parse_if_data (w : World) (data : json)
    : M (option PlatformTracks) :=
  if PyVal.truthy data then lift (_parse_tracks_response w data)
  else mret None.

(** The condition [data and "results" in data] of [get_info]. *)
Definition get_info_condition (data : json) : result bool :=
  if PyVal.truthy data then PyVal.contains "results" data else Ok false.

(** The condition
    [response and "results" in response and response["results"]] of
    [search]. *)
Definition search_condition (response : json) : result bool :=
  if PyVal.truthy response
  then has_results ← PyVal.contains "results" response;
       if (has_results : bool)
       then results ← PyVal.getitem "results" response;
            mret (PyVal.truthy results)
       else Ok false
  else Ok false.

(** The [try] block of [get_info]: [Some r] when it returns [r], [None] when
    control leaves it at its end. *)
Definition get_info_primary (w : World) (q : string)
    : M (option (option PlatformTracks)) :=
  let new_url := "https://spotify-dl-ss6q.onrender.com/search/?q=" +:+ q in
  data ← client_make_request w new_url [];
  usable ← lift (get_info_condition data);
  if (usable : bool)
  then r ← lift (_parse_tracks_response w data); mret (Some r)
  else mret None.

Definition get_info (w : World) (self : ApiData)
    : M (option PlatformTracks) :=
  if negb (Py.truthy_opt (query self)) || negb (is_valid w self (query self))
  then mret None
  else
    let q := default "" (query self) in
    returned ← try_except (get_info_primary w q)
      (fun e => log WARNING "New get_info endpoint failed: %s" [exn_str e];;
                mret None);
    match returned with
    | Some r => mret r
    | None =>
        data ← _make_api_request w self "get_url" [("url", q)];
        parse_if_data w data
    end.

(** The [try] block of [search], with the same convention. *)
Definition search_primary (w : World) (q : string)
    : M (option (option PlatformTracks)) :=
  let new_search_url := "https://spotify-dl-ss6q.onrender.com/search" in
  let params := [("q", q)] in
  response ← client_make_request w new_search_url params;
  found ← lift (search_condition response);
  if (found : bool)
  then r ← lift (_parse_tracks_response w response); mret (Some r)
  else mret None.

(** The legacy call that ends [search]. *)
Definition search_legacy (w : World) (self : ApiData) (q : string)
    : M (option PlatformTracks) :=
  data ← _make_api_request w self "search_track" [("q", q)];
  parse_if_data w data.

Definition search (w : World) (self : ApiData) : M (option PlatformTracks) :=
  if negb (Py.truthy_opt (query self)) then mret None
  else if is_valid w self (query self) then get_info w self
  else
    let q := default "" (query self) in
    returned ← try_except (search_primary w q)
      (fun e => log WARNING "New Spotify search API failed: %s" [exn_str e];;
                mret None);
    match returned with
    | Some r => mret r
    | None => search_legacy w self q
    end.

(** What [download_track] returns: [None], one path, or a list of paths. *)
Inductive download :=
  | NoFile
  | OneFile (path : string)
  | Files (paths : list string).

Definition of_option (o : option string) : download :=
  match o with
  | Some path => OneFile path
  | None => NoFile
  end.

Definition is_spotify (track : TrackInfo) : bool :=
  String.eqb (Py.lower (Track.platform track)) "spotify".

Definition download_api : string :=
  "https://spotify-dl-ss6q.onrender.com/download/?url=".

(** The request URL of the archive-based API for a Spotify track. *)
Definition spotify_api_url (track : TrackInfo) : result string :=
  let is_playlist := Py.contains "playlist" (Py.lower (Track.url track)) in
  if is_playlist then Ok (download_api +:+ Track.url track)
  else
    let track_id :=
      if Py.truthy_opt (Track.id track) then default "" (Track.id track)
      else Track.tc track in
    if negb (Py.truthy track_id)
    then Raise (PyException "No track ID available")
    else
      let spotify_track_url := "https://open.spotify.com/track/" +:+ track_id in
      Ok (download_api +:+ spotify_track_url).

(** The branch of the [try] block of [download_track] for a Spotify track:
    the archive-based API. *)
Definition download_spotify (w : World) (track : TrackInfo) : M download :=
  api_url ← lift (spotify_api_url track);
  r ← client_download_file w api_url None;
  match r with
  | Downloaded file_path =>
      let content_type := Py.lower (Py.suffix file_path) in
      if String.eqb content_type ".mp3" then mret (OneFile file_path)
      else if String.eqb content_type ".zip"
      then extracted_files ← _extract_zip w file_path;
           mret (Files extracted_files)
      else throw (PyException ("Invalid content type: " +:+ content_type))
  | Failed error => throw (PyException ("API request failed: " +:+ error))
  end.

(** The rest of the [try] block: the download from the CDN URL. *)
Definition download_direct (w : World) (track : TrackInfo) : M download :=
  if negb (Py.truthy_opt (Track.cdnurl track))
  then log ERROR "No download URL available for track %s" [Track.tc track];;
       mret NoFile
  else
    let download_path :=
      Py.path_join (DOWNLOADS_DIR w) (Track.tc track +:+ ".mp3") in
    r ← client_download_file w (default "" (Track.cdnurl track))
          (Some download_path);
    match r with
    | Failed error =>
        log ERROR "Download failed for track %s: %s" [Track.tc track; error];;
        mret NoFile
    | Downloaded file_path => mret (OneFile file_path)
    end.

(** The [try] block of [download_track]. *)
Definition download_track_try (w : World) (track : TrackInfo) : M download :=
  if is_spotify track then download_spotify w track
  else download_direct w track.

(** The [except Exception as e] block of [download_track]. *)
Definition download_track_except (w : World) (track : TrackInfo) (e : exn)
    : M download :=
  log WARNING
    "Error downloading track %s with new Spotify API: %s, falling back to original"
    [Track.tc track; exn_str e];;
  if is_spotify track
  then r ← process_original w track; mret (of_option r)
  else log ERROR "Error downloading track %s: %s" [Track.tc track; exn_str e];;
       mret NoFile.

Definition download_track (w : World) (track : option TrackInfo)
    : M download :=
  match track with
  | None => mret NoFile
  | Some track =>
      try_except (download_track_try w track) (download_track_except w track)
  end.

(** ** [_api.py]: queries and the construction of [ApiData] *)

(** The string methods below work on the characters of a string. White
    space is what [str.isspace] says of an ASCII character: the methods
    are those of Python on ASCII text, which [isascii] below recognizes. *)
Module Chars.

Definition isspace (c : ascii) : bool :=
  let n := nat_of_ascii c in
  (n =? 32)%nat || ((9 <=? n)%nat && (n <=? 13)%nat)
  || ((28 <=? n)%nat && (n <=? 31)%nat).

(** [s.lstrip()]. *)
Fixpoint lstrip (l : list ascii) : list ascii :=
  match l with
  | c :: l' => if isspace c then lstrip l' else l
  | [] => []
  end.

(** [s.rstrip()]. *)
Fixpoint rstrip (l : list ascii) : list ascii :=
  match l with
  | [] => []
  | c :: l' =>
      match rstrip l' with
      | [] => if isspace c then [] else [c]
      | r => c :: r
      end
  end.

(** [s.strip()]. *)
Definition strip (l : list ascii) : list ascii := rstrip (lstrip l).

(** [s.split(sep)[0]] for a separator of one character: what comes before
    its first occurrence. *)
Fixpoint before (sep : ascii) (l : list ascii) : list ascii :=
  match l with
  | [] => []
  | c :: l' => if Ascii.eqb sep c then [] else c :: before sep l'
  end.

(** [s.rstrip("/")]. *)
Fixpoint rstrip_slash (l : list ascii) : list ascii :=
  match l with
  | [] => []
  | c :: l' =>
      match rstrip_slash l' with
      | [] => if Ascii.eqb c "/" then [] else [c]
      | r => c :: r
      end
  end.

End Chars.

(** [s.isascii()]. *)
Definition isascii (s : string) : bool :=
  forallb (fun c => (nat_of_ascii c <? 128)%nat) (list_ascii_of_string s).

Definition _sanitize_query (query : string) : string :=
  string_of_list_ascii
    (Chars.before "#"
       (Chars.before "?" (Chars.strip (list_ascii_of_string query)))).

(** [ApiData.__init__], given the values of [config.API_URL] and
    [config.API_KEY]. *)
Definition ApiData_init (API_URL API_KEY query : option string) : ApiData :=
  {| query :=
       if Py.truthy_opt query then Some (_sanitize_query (default "" query))
       else None;
     api_url :=
       if Py.truthy_opt API_URL
       then Some (string_of_list_ascii
                    (Chars.rstrip_slash
                       (list_ascii_of_string (default "" API_URL))))
       else None;
     api_key := API_KEY |}.

(** ** [_api.py]: the URL patterns *)

(** Regular expressions as the patterns of [URL_PATTERNS] need them, and
    what [re] does with them under [re.IGNORECASE] on ASCII text (on other
    text [re] also folds the case of a few letters that are not ASCII). A
    class is a list of ranges of character codes. *)
Module Re.

Inductive regex :=
  | Nul
  | Eps
  | Cls (ranges : list (nat * nat))
  | Cat (a b : regex)
  | Alt (a b : regex)
  | Star (a : regex).

(** [r?], [r+], and a literal text. *)
Definition Opt (r : regex) : regex := Alt Eps r.

Definition Plus (r : regex) : regex := Cat r (Star r).

Fixpoint Lit (s : string) : regex :=
  match s with
  | EmptyString => Eps
  | String c s' => Cat (Cls [(nat_of_ascii c, nat_of_ascii c)]) (Lit s')
  end.

Definition upper_ascii (c : ascii) : ascii :=
  let n := nat_of_ascii c in
  if (97 <=? n)%nat && (n <=? 122)%nat then ascii_of_nat (n - 32) else c.

Definition in_ranges (ranges : list (nat * nat)) (c : ascii) : bool :=
  existsb (fun r => (fst r <=? nat_of_ascii c)%nat
                    && (nat_of_ascii c <=? snd r)%nat) ranges.

(** Under [re.IGNORECASE] a character is in a class when it is, or when its
    lower case or its upper case is. *)
Definition in_class (ranges : list (nat * nat)) (c : ascii) : bool :=
  in_ranges ranges c || in_ranges ranges (Py.lower_ascii c)
  || in_ranges ranges (upper_ascii c).

Fixpoint nullable (r : regex) : bool :=
  match r with
  | Nul | Cls _ => false
  | Eps | Star _ => true
  | Cat a b => nullable a && nullable b
  | Alt a b => nullable a || nullable b
  end.

Definition cat (a b : regex) : regex :=
  match a with
  | Nul => Nul
  | _ => Cat a b
  end.

Definition alt (a b : regex) : regex :=
  match a, b with
  | Nul, _ => b
  | _, Nul => a
  | _, _ => Alt a b
  end.

(** What is left of [r] to match once the character [c] is read. *)
Fixpoint deriv (c : ascii) (r : regex) : regex :=
  match r with
  | Nul | Eps => Nul
  | Cls ranges => if in_class ranges c then Eps else Nul
  | Cat a b =>
      if nullable a then alt (cat (deriv c a) b) (deriv c b)
      else cat (deriv c a) b
  | Alt a b => alt (deriv c a) (deriv c b)
  | Star a => cat (deriv c a) (Star a)
  end.

(** Whether the whole of [s] matches [r]. *)
Fixpoint matches (r : regex) (s : list ascii) : bool :=
  match s with
  | [] => nullable r
  | c :: s' => matches (deriv c r) s'
  end.

Definition newline : ascii := "010"%char.

(** [re.compile("^r$", re.IGNORECASE).match(s)]: the whole of [s] matches,
    or [s] without the newline that ends it does. *)
Definition py_match (r : regex) (s : list ascii) : bool :=
  matches r s ||
  match rev s with
  | c :: t => Ascii.eqb c newline && matches r (rev t)
  | [] => false
  end.

(** The strings of a regular expression. *)
Inductive lang : regex -> list ascii -> Prop :=
  | lang_eps : lang Eps []
  | lang_cls ranges c : in_class ranges c = true -> lang (Cls ranges) [c]
  | lang_cat a b s1 s2 : lang a s1 -> lang b s2 -> lang (Cat a b) (s1 ++ s2)
  | lang_alt_l a b s : lang a s -> lang (Alt a b) s
  | lang_alt_r a b s : lang b s -> lang (Alt a b) s
  | lang_star_nil a : lang (Star a) []
  | lang_star_app a s1 s2 :
      lang a s1 -> lang (Star a) s2 -> lang (Star a) (s1 ++ s2).

(** Whether no class of [r] holds one of the characters [bad]. *)
Fixpoint avoids (bad : list ascii) (r : regex) : bool :=
  match r with
  | Nul | Eps => true
  | Cls ranges => forallb (fun c => negb (in_class ranges c)) bad
  | Cat a b | Alt a b => avoids bad a && avoids bad b
  | Star a => avoids bad a
  end.

End Re.

(** The pieces of the three patterns. *)
Definition re_scheme : Re.regex :=
  Re.Cat (Re.Lit "http") (Re.Cat (Re.Opt (Re.Lit "s")) (Re.Lit "://")).

(** [.]: any character but the newline. *)
Definition re_dot : Re.regex := Re.Cls [(0, 9); (11, 255)]%nat.

(** The optional query string: a question mark, then any characters but
    newlines. *)
Definition re_query : Re.regex :=
  Re.Opt (Re.Cat (Re.Lit "?") (Re.Star re_dot)).

(** [[a-zA-Z0-9\-_]], [[a-zA-Z0-9]], [[0-9]], [[a-z]]. *)
Definition re_word : Re.regex :=
  Re.Cls [(97, 122); (65, 90); (48, 57); (45, 45); (95, 95)]%nat.

Definition re_alnum : Re.regex := Re.Cls [(97, 122); (65, 90); (48, 57)]%nat.

Definition re_digit : Re.regex := Re.Cls [(48, 57)]%nat.

Definition re_letter : Re.regex := Re.Cls [(97, 122)]%nat.

(** The second group of each pattern: host and path. *)
Definition apple_music_base : Re.regex :=
  Re.Cat (Re.Lit "music.apple.com/")
    (Re.Cat (Re.Opt (Re.Cat re_letter (Re.Cat re_letter (Re.Lit "/"))))
       (Re.Cat (Re.Alt (Re.Lit "album")
                  (Re.Alt (Re.Lit "playlist") (Re.Lit "song")))
          (Re.Cat (Re.Lit "/")
             (Re.Cat (Re.Plus re_word)
                (Re.Cat (Re.Lit "/") (Re.Plus re_digit)))))).

Definition spotify_base : Re.regex :=
  Re.Cat (Re.Lit "open.spotify.com/")
    (Re.Cat (Re.Alt (Re.Lit "track")
               (Re.Alt (Re.Lit "playlist")
                  (Re.Alt (Re.Lit "album") (Re.Lit "artist"))))
       (Re.Cat (Re.Lit "/") (Re.Plus re_alnum))).

Definition soundcloud_base : Re.regex :=
  Re.Cat (Re.Lit "soundcloud.com/")
    (Re.Cat (Re.Plus re_word) (Re.Cat (Re.Lit "/") (Re.Plus re_word))).

(** A pattern between its anchors: an optional scheme, host and path, an
    optional query string. *)
Definition url_pattern (base : Re.regex) : Re.regex :=
  Re.Cat (Re.Cat (Re.Opt re_scheme) base) re_query.

Definition URL_PATTERNS : list (string * Re.regex) :=
  [ ("apple_music", url_pattern apple_music_base);
    ("spotify", url_pattern spotify_base);
    ("soundcloud", url_pattern soundcloud_base) ].

(** [any(pattern.match(url) for pattern in self.URL_PATTERNS.values())]. *)
Definition URL_PATTERNS_match (url : string) : bool :=
  existsb (fun p => Re.py_match (snd p) (list_ascii_of_string url))
    URL_PATTERNS.

(** The characters at which [_sanitize_query] strips or cuts: white space,
    [?] and [#]. *)
Definition stops : list ascii :=
  List.filter (fun c => Chars.isspace c || Ascii.eqb c "?" || Ascii.eqb c "#")
    (map ascii_of_nat (seq 0 256)).

(** The world [w] with [re] as it is modelled above. *)
Definition with_re (w : World) : World :=
  {| DOWNLOADS_DIR := DOWNLOADS_DIR w;
     make_request := make_request w;
     download_file := download_file w;
     aes_encrypt := aes_encrypt w;
     zip_members := zip_members w;
     ffmpeg := ffmpeg w;
     remove_denied := remove_denied w;
     MusicTrack_accepts := MusicTrack_accepts w;
     url_pattern_match := URL_PATTERNS_match |}.

(** ** What a run keeps *)


(** The trace holds the warning of [_cleanup] for a removal of [path] that
    raised. *)
Definition removal_logged (path : string) (tr : list event) : Prop :=
  exists e,
    In (EvLog WARNING "Error removing %s: %s" [path; exn_str e]) tr.

(** After a run that added the events [evs] to the trace and ended in
    [s'], an intermediate file is gone, unless its removal raised and was
    logged during the run. *)
Definition cleaned (path : string) (s' : state) (evs : list event) : Prop :=
  fs s' !! path = None \/ removal_logged path evs.

(** A computation only adds events to the trace, whether it returns or
    raises. *)
Definition appends {A} (m : M A) : Prop :=
  forall s, exists evs, trace (snd (m s)) = trace s ++ evs.

(** What one turn of the loop of [_cleanup] leaves on disk. *)
Definition after_removal (w : World) (file : string)
    (files : gmap string node) : gmap string node :=
  match files !! file with
  | Some (File _) => if remove_denied w file then files else delete file files
  | _ => files
  end.

(** Whether the key of a track decodes to a key that [AES.new] accepts. *)
Definition usable_key (track : TrackInfo) : bool :=
  match fromhex_or_raise (Track.key track) with
  | Ok aes_key => existsb (Nat.eqb (length aes_key)) [16; 24; 32]%nat
  | Raise _ => false
  end.

(** The command line of [fix_audio]. *)
Definition ffmpeg_argv (w : World) (track : TrackInfo) : list string :=
  ["ffmpeg"; "-i"; decrypted_file w track; "-c"; "copy"; output_file w track].

(** What [process_original] hands to ffmpeg when the client has saved the
    stream [data] as the encrypted file: the stream decrypted, then
    repaired. *)
Definition repaired_stream (w : World) (aes_key data : list Z) : list Z :=
  rebuild_ogg_bytes (snd (cipher_decrypt w aes_key initial_cipher data)).

(** The files ffmpeg then finds. *)
Definition files_for_ffmpeg (w : World) (track : TrackInfo)
    (aes_key data : list Z) (files : gmap string node) : gmap string node :=
  <[decrypted_file w track := File (repaired_stream w aes_key data)]>
    (<[encrypted_file w track := File data]> files).

(** What the legacy search comes to, spelled out. Without a configured
    legacy API an error is logged, no request is made and the result is
    none. With one, the [search_track] endpoint is requested: an exception
    of the request goes to the caller, a falsy answer gives none, and any
    other answer is parsed. *)
Definition legacy_search_outcome (w : World) (self : ApiData) (q : string)
    (s1 : state) : result (option PlatformTracks) * state :=
  if Py.truthy_opt (api_url self) && Py.truthy_opt (api_key self)
  then
    let url := default "" (api_url self) +:+ "/search_track" in
    let s2 := {| fs := fs s1;
                 trace := trace s1 ++ [EvRequest url [("q", q)]] |} in
    match make_request w url [("q", q)] with
    | Raise e => (Raise e, s2)
    | Ok data =>
        (if PyVal.truthy data then _parse_tracks_response w data else Ok None,
         s2)
    end
  else
    (Ok None,
     {| fs := fs s1;
        trace := trace s1 ++ [EvLog ERROR "API configuration missing" []] |}).

(** The legacy call that ends [get_info]. *)
Definition get_info_legacy (w : World) (self : ApiData) (q : string)
    : M (option PlatformTracks) :=
  data ← _make_api_request w self "get_url" [("url", q)];
  parse_if_data w data.




(** ** Scenarios *)

(** Concrete worlds, tracks and states, on which the statements of Part II
    are run. *)
Module Scenario.

(** A toy block cipher, a world without network, ffmpeg failing. *)
Definition offline : World :=
  {| DOWNLOADS_DIR := "downloads";
     make_request := fun _ _ => Raise (ClientError "offline");
     download_file := fun _ _ => DlRaises (ClientError "offline");
     aes_encrypt := fun aes_key block =>
       map (fun b => Z.lxor b (hd 0%Z aes_key + 165)) block;
     zip_members := fun _ => None;
     ffmpeg := fun _ _ => FfExits 1 "no input" None;
     remove_denied := fun _ => false;
     MusicTrack_accepts := fun _ => true;
     url_pattern_match := fun _ => false |}.

Definition song : TrackInfo :=
  {| Track.platform := "spotify";
     Track.id := Some "4uLU6hMCjMI75M1A2tKUQC";
     Track.url := "https://open.spotify.com/track/4uLU6hMCjMI75M1A2tKUQC";
     Track.cdnurl := Some "https://cdn.example/audio/4uLU6h";
     Track.key := Some "000102030405060708090a0b0c0d0e0f";
     Track.tc := "4uLU6h" |}.

Definition song_key : list Z :=
  [0; 1; 2; 3; 4; 5; 6; 7; 8; 9; 10; 11; 12; 13; 14; 15]%Z.

Definition nothing : state := {| fs := ∅; trace := [] |}.

(** Twenty bytes, more than one cipher block. *)
Definition stream : list Z :=
  [9; 8; 7; 6; 5; 4; 3; 2; 1; 0; 9; 8; 7; 6; 5; 4; 3; 2; 1; 0]%Z.

(** The encrypted stream of [song] is on disk. *)
Definition fetched : state :=
  {| fs := {[ "downloads/4uLU6h.encrypted.ogg" := File stream ]};
     trace := [] |}.

(** The final file of [song] is on disk from an earlier run, and so is an
    encrypted intermediate that the earlier run left behind. *)
Definition cached : state :=
  {| fs := {[ "downloads/4uLU6h.ogg" := File (Bytes.of_string "OggS");
              "downloads/4uLU6h.encrypted.ogg" := File stream ]};
     trace := [] |}.

(** A world in which the archive-based API answers every download with an
    MP3 file. *)
Definition online : World :=
  {| DOWNLOADS_DIR := "downloads";
     make_request := fun _ _ => Ok JNull;
     download_file := fun _ _ => DlSaves "downloads/api/track.mp3" [73; 68; 51]%Z;
     aes_encrypt := aes_encrypt offline;
     zip_members := fun _ => None;
     ffmpeg := fun _ _ => FfExits 1 "no input" None;
     remove_denied := fun _ => false;
     MusicTrack_accepts := fun _ => true;
     url_pattern_match := fun _ => false |}.

(** A text query, with the legacy API configured. *)
Definition text_search : ApiData :=
  {| query := Some "around the world";
     api_url := Some "https://api.example";
     api_key := Some "secret" |}.

(** A Spotify track that has neither an id nor a cache-key token, and a
    track of another platform. *)
Definition anonymous : TrackInfo :=
  {| Track.platform := "Spotify";
     Track.id := None;
     Track.url := "https://open.spotify.com/track/";
     Track.cdnurl := None;
     Track.key := None;
     Track.tc := "" |}.

Definition cloud_song : TrackInfo :=
  {| Track.platform := "soundcloud";
     Track.id := Some "42";
     Track.url := "https://soundcloud.com/artist/title";
     Track.cdnurl := Some "https://cdn.example/audio/42";
     Track.key := None;
     Track.tc := "sc42" |}.

End Scenario.

(** More tracks and worlds, for the further properties. *)
Module Cases.

(** The key of this track is not hexadecimal. *)
Definition bad_key_song : TrackInfo :=
  {| Track.platform := "spotify";
     Track.id := Some "4uLU6hMCjMI75M1A2tKUQC";
     Track.url := "https://open.spotify.com/track/4uLU6hMCjMI75M1A2tKUQC";
     Track.cdnurl := Some "https://cdn.example/audio/4uLU6h";
     Track.key := Some "not a key";
     Track.tc := "4uLU6h" |}.

(** The client saves the stream where it is told to, and ffmpeg writes a
    file and exits with 0. *)
Definition studio : World :=
  {| DOWNLOADS_DIR := "downloads";
     make_request := fun _ _ => Ok JNull;
     download_file := fun _ dest =>
       match dest with
       | Some path => DlSaves path Scenario.stream
       | None => DlRaises (ClientError "no destination")
       end;
     aes_encrypt := aes_encrypt Scenario.offline;
     zip_members := fun _ => None;
     ffmpeg := fun _ _ => FfExits 0 "" (Some (Bytes.of_string "OggS, repacked"));
     remove_denied := fun _ => false;
     MusicTrack_accepts := fun _ => true;
     url_pattern_match := fun _ => false |}.

(** The same, but ffmpeg gives up with code 1 after it has written the
    beginning of the output file. *)
Definition broken_studio : World :=
  {| DOWNLOADS_DIR := "downloads";
     make_request := fun _ _ => Ok JNull;
     download_file := download_file studio;
     aes_encrypt := aes_encrypt Scenario.offline;
     zip_members := fun _ => None;
     ffmpeg := fun _ _ =>
       FfExits 1 "Invalid data found" (Some (Bytes.of_string "Ogg"));
     remove_denied := fun _ => false;
     MusicTrack_accepts := fun _ => true;
     url_pattern_match := fun _ => false |}.

(** The archive-based API answers with a file named [.zip] that is no
    archive. *)
Definition bad_archive : World :=
  {| DOWNLOADS_DIR := "downloads";
     make_request := fun _ _ => Ok JNull;
     download_file := fun _ _ =>
       DlSaves "downloads/api/tracks.ZIP" (Bytes.of_string "<html>");
     aes_encrypt := aes_encrypt Scenario.offline;
     zip_members := fun _ => None;
     ffmpeg := fun _ _ => FfExits 1 "no input" None;
     remove_denied := fun _ => false;
     MusicTrack_accepts := fun _ => true;
     url_pattern_match := fun _ => false |}.

(** The archive-based API answers with an archive of two tracks, one of
    them stored under a name that leaves the archive's directory. *)
Definition album : list zip_entry :=
  [ {| member_name := "cover.jpg"; member_data := Some (Bytes.of_string "JFIF") |};
    {| member_name := "01 - intro.mp3";
       member_data := Some (Bytes.of_string "ID3 intro") |};
    {| member_name := "../song.mp3";
       member_data := Some (Bytes.of_string "ID3 song") |} ].

Definition album_api : World :=
  {| DOWNLOADS_DIR := "downloads";
     make_request := fun _ _ => Ok JNull;
     download_file := fun _ _ =>
       DlSaves "downloads/api/album.zip" (Bytes.of_string "PK");
     aes_encrypt := aes_encrypt Scenario.offline;
     zip_members := fun _ => Some album;
     ffmpeg := fun _ _ => FfExits 1 "no input" None;
     remove_denied := fun _ => false;
     MusicTrack_accepts := fun _ => true;
     url_pattern_match := fun _ => false |}.

Definition album_on_disk : state :=
  {| fs := {[ "downloads/api/album.zip" := File (Bytes.of_string "PK") ]};
     trace := [] |}.

(** A Spotify track that the legacy scheme cannot fetch: no key. *)
Definition keyless_song : TrackInfo :=
  {| Track.platform := "spotify";
     Track.id := Some "4uLU6hMCjMI75M1A2tKUQC";
     Track.url := "https://open.spotify.com/track/4uLU6hMCjMI75M1A2tKUQC";
     Track.cdnurl := Some "https://cdn.example/audio/4uLU6h";
     Track.key := None;
     Track.tc := "4uLU6h" |}.

(** A world whose patterns recognise every query as a URL and whose new
    endpoint knows no track. *)
Definition empty_catalogue : World :=
  {| DOWNLOADS_DIR := "downloads";
     make_request := fun _ _ => Ok (JDict [("results", JList [])]);
     download_file := fun _ _ => DlRaises (ClientError "offline");
     aes_encrypt := aes_encrypt Scenario.offline;
     zip_members := fun _ => None;
     ffmpeg := fun _ _ => FfExits 1 "no input" None;
     remove_denied := fun _ => false;
     MusicTrack_accepts := fun _ => true;
     url_pattern_match := fun _ => true |}.

Definition url_lookup : ApiData :=
  {| query := Some "https://open.spotify.com/track/4uLU6hMCjMI75M1A2tKUQC";
     api_url := Some "https://api.example";
     api_key := Some "secret" |}.

(** A link as a player shares it, and the same link as a user may type
    it. *)
Definition shared_link : string :=
  "https://open.spotify.com/track/4uLU6hMCjMI75M1A2tKUQC?si=0a1b2c3d".

Definition typed_link : string :=
  "HTTPS://Open.Spotify.com/Track/4uLU6hMCjMI75M1A2tKUQC".

(** A text query with no legacy API configured. *)
Definition unconfigured : ApiData :=
  {| query := Some "around the world";
     api_url := None;
     api_key := None |}.

End Cases.

(** * Part II: the proofs *)

(** ** Running computations *)

Lemma run_bind {A B} (m : M A) (k : A -> M B) (s : state) :
  (m ≫= k) s =
  match m s with
  | (Ok a, s') => k a s'
  | (Raise e, s') => (Raise e, s')
  end.
Proof. reflexivity. Qed.

Lemma run_try_except {A} (body : M A) (handler : exn -> M A) (s : state) :
  try_except body handler s =
  match body s with
  | (Ok a, s') => (Ok a, s')
  | (Raise e, s') => handler e s'
  end.
Proof. reflexivity. Qed.

(** ** Positioned writes *)

Lemma length_write_at p data f :
  length (Bytes.write_at p data f) = Nat.max (length f) (p + length data).
Proof.
  unfold Bytes.write_at.
  rewrite !length_app, length_take, length_drop, length_app, repeat_length.
  lia.
Qed.

Lemma nth_pad (f : list Z) k i : nth i (f ++ repeat 0%Z k) 0%Z = nth i f 0%Z.
Proof.
  destruct (Nat.lt_ge_cases i (length f)) as [Hlt | Hge].
  - now rewrite app_nth1.
  - rewrite app_nth2 by exact Hge.
    rewrite (nth_overflow f) by exact Hge.
    apply nth_repeat.
Qed.

(** The byte at offset [i] after a write: the written byte inside the
    written range, the old byte (zero in a hole) outside it. *)
Lemma nth_write_at p data f i :
  nth i (Bytes.write_at p data f) 0%Z =
  if (p <=? i)%nat && (i <? p + length data)%nat
  then nth (i - p) data 0%Z else nth i f 0%Z.
Proof.
  unfold Bytes.write_at.
  set (f' := f ++ repeat 0%Z (p - length f)).
  assert (Hlen : (p <= length f')%nat)
    by (subst f'; rewrite length_app, repeat_length; lia).
  assert (Hf' : forall j, nth j f' 0%Z = nth j f 0%Z)
    by (intros j; subst f'; apply nth_pad).
  destruct (Nat.leb_spec p i) as [Hpi | Hpi]; simpl.
  - rewrite app_nth2 by (rewrite length_take; lia).
    rewrite length_take, Nat.min_l by exact Hlen.
    destruct (Nat.ltb_spec i (p + length data)) as [Hin | Hout].
    + rewrite app_nth1 by lia. reflexivity.
    + rewrite app_nth2 by lia.
      rewrite nth_skipn, <- Hf'. f_equal. lia.
  - rewrite app_nth1 by (rewrite length_take; lia).
    rewrite nth_firstn.
    destruct (Nat.ltb_spec i p); [apply Hf' | lia].
Qed.

Lemma length_apply_table table data :
  length (apply_table table data) = Nat.max (length data) (table_extent table).
Proof.
  revert data. induction table as [| [off bytes] rest IH]; intros data; simpl.
  - lia.
  - unfold apply_table in *. simpl. rewrite IH, length_write_at. lia.
Qed.

Lemma nth_apply_table table data i :
  nth i (apply_table table data) 0%Z =
  match table_byte table i with
  | Some b => b
  | None => nth i data 0%Z
  end.
Proof.
  revert data. induction table as [| [off bytes] rest IH]; intros data.
  - reflexivity.
  - unfold apply_table in *. simpl. rewrite IH.
    destruct (table_byte rest i); [reflexivity |].
    rewrite nth_write_at.
    destruct ((off <=? i)%nat && (i <? off + length bytes)%nat); reflexivity.
Qed.

(** The writes of [rebuild_ogg] are the rows of the table, in its order. *)
Lemma rebuild_ogg_bytes_table data :
  rebuild_ogg_bytes data = apply_table repair_table data.
Proof. reflexivity. Qed.

Lemma lookup_nth_0 (l : list Z) i :
  (i < length l)%nat -> l !! i = Some (nth i l 0%Z).
Proof.
  intros Hi. destruct (nth_lookup_or_length l i 0%Z) as [H | H]; [exact H | lia].
Qed.

Lemma table_byte_repair_bound i b :
  table_byte repair_table i = Some b -> (i < 72)%nat.
Proof.
  intros H. destruct (Nat.lt_ge_cases i 72) as [Hlt | Hge]; [exact Hlt |].
  exfalso. do 72 (destruct i as [| i]; [lia |]).
  cbn in H. discriminate H.
Qed.

(** What [rebuild_ogg] does, case by case on what its path names. *)
Lemma rebuild_ogg_run (filename : string) (s : state) :
  rebuild_ogg filename s =
  match fs s !! filename with
  | None =>
      (Ok tt, {| fs := fs s;
                 trace := trace s ++
                   [EvLog ERROR "Error: %s not found." [filename]] |})
  | Some (File data) =>
      (Ok tt, {| fs := <[filename := File (rebuild_ogg_bytes data)]> (fs s);
                 trace := trace s ++ [EvOpen filename "r+b"] |})
  | Some Dir =>
      (Ok tt, {| fs := fs s;
                 trace := (trace s ++ [EvOpen filename "r+b"]) ++
                   [EvLog ERROR "Error rebuilding OGG file %s: %s"
                      [filename; exn_str (IsADirectoryError filename)]] |})
  end.
Proof.
  unfold rebuild_ogg, path_exists, open_existing, try_except, log, emit,
    get_fs, set_node, throw, mbind, M_bind, mret, M_ret.
  destruct (fs s !! filename) as [[data |] |] eqn:Hnode;
    cbn [negb fs trace]; rewrite ?Hnode; reflexivity.
Qed.

(** C6: on a missing path [rebuild_ogg] logs and returns; on a regular file
    it returns having replaced the content by the rows of the table of the
    specification written in its order, which puts the constant of each row
    at its offsets, leaves every other byte of the file as it was, and makes
    the file at least 72 bytes long; opening a directory raises, which is
    logged and swallowed. *)
Theorem rebuild_ogg_overwrites_table (filename : string) (s : state) :
  match fs s !! filename with
  | None =>
      rebuild_ogg filename s =
      (Ok tt, {| fs := fs s;
                 trace := trace s ++
                   [EvLog ERROR "Error: %s not found." [filename]] |})
  | Some (File data) =>
      let patched := apply_table repair_table data in
      rebuild_ogg filename s =
      (Ok tt, {| fs := <[filename := File patched]> (fs s);
                 trace := trace s ++ [EvOpen filename "r+b"] |})
      /\ length patched = Nat.max (length data) 72
      /\ (forall i b, table_byte repair_table i = Some b ->
                      patched !! i = Some b)
      /\ (forall i, table_byte repair_table i = None ->
                    (i < length data)%nat -> patched !! i = data !! i)
  | Some Dir =>
      fst (rebuild_ogg filename s) = Ok tt /\
      fs (snd (rebuild_ogg filename s)) = fs s
  end.
Proof.
  rewrite rebuild_ogg_run.
  destruct (fs s !! filename) as [[data |] |] eqn:Hnode.
  - intros patched. split; [reflexivity |].
    assert (Hlen : length patched = Nat.max (length data) 72)
      by (subst patched; rewrite length_apply_table; reflexivity).
    assert (Hnth : forall i, nth i patched 0%Z =
                             match table_byte repair_table i with
                             | Some b => b
                             | None => nth i data 0%Z
                             end)
      by (intros i; subst patched; apply nth_apply_table).
    clearbody patched.
    split; [exact Hlen |]. split.
    + intros i b Hb.
      rewrite lookup_nth_0
        by (rewrite Hlen; apply table_byte_repair_bound in Hb; lia).
      now rewrite Hnth, Hb.
    + intros i Hnone Hi.
      rewrite (lookup_nth_0 patched i) by (rewrite Hlen; lia).
      rewrite (lookup_nth_0 data i) by exact Hi.
      now rewrite Hnth, Hnone.
  - split; reflexivity.
  - reflexivity.
Qed.

(** C7: the repair of a repaired content is that content, for every
    content; so the file after two runs of [rebuild_ogg] is the file after
    one. *)
Theorem rebuild_ogg_idempotent (filename : string) (s : state) (data : list Z) :
  rebuild_ogg_bytes (rebuild_ogg_bytes data) = rebuild_ogg_bytes data /\
  fs (snd (rebuild_ogg filename (snd (rebuild_ogg filename s)))) =
  fs (snd (rebuild_ogg filename s)).
Proof.
  assert (Hbytes : forall d,
    rebuild_ogg_bytes (rebuild_ogg_bytes d) = rebuild_ogg_bytes d).
  { intros d. rewrite (rebuild_ogg_bytes_table (rebuild_ogg_bytes d)).
    rewrite (rebuild_ogg_bytes_table d).
    apply (nth_ext _ _ 0%Z 0%Z).
    - rewrite !length_apply_table.
      now rewrite <- Nat.max_assoc, Nat.max_id.
    - intros i _. rewrite !nth_apply_table.
      destruct (table_byte repair_table i); reflexivity. }
  split; [apply Hbytes |].
  rewrite (rebuild_ogg_run filename s).
  destruct (fs s !! filename) as [[d |] |] eqn:Hnode;
    rewrite rebuild_ogg_run; cbn [snd fs].
  - rewrite lookup_insert_eq. cbn [snd fs].
    now rewrite insert_insert_eq, Hbytes.
  - now rewrite Hnode.
  - now rewrite Hnode.
Qed.

(** ** The stream cipher *)

Lemma lxor_twice (b k : Z) : Z.lxor (Z.lxor b k) k = b.
Proof. now rewrite Z.lxor_assoc, Z.lxor_nilpotent, Z.lxor_0_r. Qed.

(** A byte sent through the cipher twice from the same state comes back, and
    the state reached does not depend on the byte. *)
Lemma cipher_byte_twice w aes_key c b :
  cipher_byte w aes_key c (snd (cipher_byte w aes_key c b)) =
  (fst (cipher_byte w aes_key c b), b).
Proof.
  unfold cipher_byte. destruct (keystream c); cbn [fst snd];
    now rewrite lxor_twice.
Qed.

Lemma cipher_decrypt_twice w aes_key data : forall c,
  cipher_decrypt w aes_key c (snd (cipher_decrypt w aes_key c data)) =
  (fst (cipher_decrypt w aes_key c data), data).
Proof.
  induction data as [| b rest IH]; intros c; [reflexivity |].
  cbn [cipher_decrypt].
  pose proof (cipher_byte_twice w aes_key c b) as Hb.
  destruct (cipher_byte w aes_key c b) as [c1 o] eqn:Hstep.
  cbn [fst snd] in Hb.
  specialize (IH c1).
  destruct (cipher_decrypt w aes_key c1 rest) as [c2 os] eqn:Hrest.
  cbn [fst snd] in IH |- *.
  cbn [cipher_decrypt]. rewrite Hb, IH. reflexivity.
Qed.

(** The cipher does not see where a stream is cut. *)
Lemma cipher_decrypt_app w aes_key a b : forall c,
  cipher_decrypt w aes_key c (a ++ b) =
  (fst (cipher_decrypt w aes_key (fst (cipher_decrypt w aes_key c a)) b),
   snd (cipher_decrypt w aes_key c a) ++
   snd (cipher_decrypt w aes_key (fst (cipher_decrypt w aes_key c a)) b)).
Proof.
  induction a as [| x a IH]; intros c.
  - cbn. now destruct (cipher_decrypt w aes_key c b).
  - cbn [app cipher_decrypt].
    destruct (cipher_byte w aes_key c x) as [c1 o].
    rewrite IH.
    destruct (cipher_decrypt w aes_key c1 a) as [c2 os].
    reflexivity.
Qed.

Lemma decrypt_chunks_concat w aes_key chunks : forall c,
  decrypt_chunks w aes_key c chunks =
  cipher_decrypt w aes_key c (concat chunks).
Proof.
  induction chunks as [| chunk rest IH]; intros c; [reflexivity |].
  cbn [decrypt_chunks concat]. rewrite cipher_decrypt_app.
  destruct (cipher_decrypt w aes_key c chunk) as [c1 o].
  rewrite IH. cbn [fst snd].
  now destruct (cipher_decrypt w aes_key c1 (concat rest)).
Qed.

Lemma length_le_bytes len n : length (Bytes.le_bytes len n) = len.
Proof.
  revert n. induction len as [| len IH]; intros n; [reflexivity |].
  cbn [Bytes.le_bytes length]. now rewrite IH.
Qed.

Lemma length_be_bytes len n : length (Bytes.be_bytes len n) = len.
Proof. unfold Bytes.be_bytes. now rewrite length_rev, length_le_bytes. Qed.

Section Counter_mode.

Variable w : World.
Variable aes_key : list Z.

(** The block cipher maps a 16-byte block to a 16-byte block. *)
Hypothesis aes_block_size :
  forall k block, length block = 16%nat ->
                  length (aes_encrypt w k block) = 16%nat.

Lemma length_ctr_keystream n : forall ctr,
  (n <= length (ctr_keystream w aes_key ctr n))%nat.
Proof.
  induction n as [| n IH]; intros ctr; cbn [ctr_keystream]; [lia |].
  rewrite length_app, aes_block_size by apply length_be_bytes.
  specialize (IH ((ctr + 1) mod 2 ^ 128)%Z). lia.
Qed.

(** The cipher object is the standard's counter mode: what it returns is
    the exclusive or with the key stream it has left followed by the key
    stream from its counter on. *)
Lemma cipher_decrypt_keystream data : forall c n,
  (length data <= n)%nat ->
  snd (cipher_decrypt w aes_key c data) =
  xor_bytes data (keystream c ++ ctr_keystream w aes_key (counter c) n).
Proof.
  induction data as [| b rest IH]; intros c n Hn; [reflexivity |].
  cbn [cipher_decrypt]. unfold cipher_byte.
  destruct (keystream c) as [| k ks] eqn:Hks.
  - destruct n as [| n]; [cbn in Hn; lia |].
    cbn [ctr_keystream app].
    pose proof (aes_block_size aes_key (Bytes.be_bytes 16 (counter c))
                  (length_be_bytes 16 (counter c))) as Hblock.
    destruct (aes_encrypt w aes_key (Bytes.be_bytes 16 (counter c)))
      as [| h t]; [discriminate Hblock |].
    cbn [hd tl app xor_bytes].
    specialize (IH {| counter := ((counter c + 1) mod 2 ^ 128)%Z;
                      keystream := t |} n).
    destruct (cipher_decrypt w aes_key _ rest) as [c2 os].
    cbn [snd counter keystream] in *. rewrite IH by (cbn in Hn; lia).
    reflexivity.
  - cbn [app xor_bytes].
    specialize (IH {| counter := counter c; keystream := ks |} n).
    destruct (cipher_decrypt w aes_key _ rest) as [c2 os].
    cbn [snd counter keystream] in *. rewrite IH by (cbn in Hn; lia).
    reflexivity.
Qed.

Lemma length_xor_bytes data : forall ks,
  (length data <= length ks)%nat -> length (xor_bytes data ks) = length data.
Proof.
  induction data as [| b rest IH]; intros [| k ks] Hlen; cbn in *;
    try reflexivity; try lia.
  rewrite IH by lia. reflexivity.
Qed.

Lemma xor_bytes_twice data : forall ks,
  (length data <= length ks)%nat -> xor_bytes (xor_bytes data ks) ks = data.
Proof.
  induction data as [| b rest IH]; intros [| k ks] Hlen; cbn in *;
    try reflexivity; try lia.
  rewrite lxor_twice, IH by lia. reflexivity.
Qed.

(** Encrypting what a fresh cipher object has decrypted gives the message
    back. *)
Lemma ctr_encrypt_decrypted iv data :
  ctr_encrypt w aes_key iv
    (snd (cipher_decrypt w aes_key {| counter := iv; keystream := [] |} data))
  = data.
Proof.
  unfold ctr_encrypt.
  rewrite (cipher_decrypt_keystream data _ (length data)) by lia.
  cbn [keystream counter app].
  rewrite length_xor_bytes by apply length_ctr_keystream.
  apply xor_bytes_twice, length_ctr_keystream.
Qed.

End Counter_mode.

Lemma chunk_size_pos : (0 < chunk_size)%nat.
Proof. unfold chunk_size. lia. Qed.

Lemma firstn_chunk_nil (fin : list Z) : firstn chunk_size fin = [] -> fin = [].
Proof.
  pose proof chunk_size_pos as Hpos.
  destruct chunk_size as [| n]; [lia |].
  destruct fin; [reflexivity | discriminate].
Qed.

(** The reading loop, given fuel beyond the length of what is left to read,
    ends with the destination extended by the decryption of all of it, as
    if it had gone through the cipher in one piece. *)
Lemma decrypt_loop_run w aes_key fout : forall fuel c fin s old,
  (length fin < fuel)%nat ->
  fs s !! fout = Some (File old) ->
  exists evs,
    decrypt_loop w aes_key fuel c fin fout s =
    (Ok tt,
     {| fs := <[fout := File (old ++ snd (cipher_decrypt w aes_key c fin))]>
                (fs s);
        trace := trace s ++ evs |}).
Proof.
  induction fuel as [| fuel IH]; intros c fin s old Hfuel Hout; [lia |].
  cbn [decrypt_loop].
  destruct (firstn chunk_size fin) as [| b chunk] eqn:Hchunk.
  - apply firstn_chunk_nil in Hchunk. subst fin. exists [].
    destruct s as [files tr]. cbn in *.
    rewrite !app_nil_r, insert_id by exact Hout. reflexivity.
  - rewrite <- Hchunk.
    assert (Hsplit : fin = firstn chunk_size fin ++ skipn chunk_size fin)
      by (symmetry; apply firstn_skipn).
    assert (Hless : (length (skipn chunk_size fin) < fuel)%nat).
    { rewrite length_drop. pose proof chunk_size_pos.
      assert (length fin <> 0)%nat
        by (destruct fin; [rewrite firstn_nil in Hchunk; discriminate |];
            cbn; lia).
      lia. }
    rewrite (f_equal (cipher_decrypt w aes_key c) Hsplit), cipher_decrypt_app.
    destruct (cipher_decrypt w aes_key c (firstn chunk_size fin))
      as [c' dec] eqn:Hdec.
    cbn [fst snd].
    unfold emit, append_file, get_fs, set_node, mbind, M_bind, mret, M_ret.
    cbn [fs trace]. rewrite Hout. cbn [fs trace].
    edestruct (IH c' (skipn chunk_size fin)
                 {| fs := <[fout := File (old ++ dec)]> (fs s);
                    trace := trace s ++
                      [EvCipher (length (firstn chunk_size fin))] |}
                 (old ++ dec) Hless) as [evs Hrun].
    { cbn [fs]. apply lookup_insert_eq. }
    rewrite Hrun. cbn [fs trace].
    exists (EvCipher (length (firstn chunk_size fin)) :: evs).
    rewrite insert_insert_eq, <- !app_assoc. reflexivity.
Qed.

Ltac run :=
  unfold try_except, throw, lift, log, emit, get_fs, set_node, path_exists,
    open_existing, open_truncate, mbind, M_bind, mret, M_ret;
  cbn [fs trace fst snd].

Lemma iv_decodes :
  fromhex_or_raise (Some iv_hex) =
  Ok [114; 224; 103; 251; 221; 203; 207; 119;
      235; 232; 188; 100; 63; 99; 13; 147]%Z.
Proof. vm_compute. reflexivity. Qed.

(** [decrypt_audio] on a usable key and a readable source: the destination
    holds the source sent through the cipher in one piece. *)
Lemma decrypt_audio_run w track s aes_key encrypted :
  fromhex_or_raise (Track.key track) = Ok aes_key ->
  existsb (Nat.eqb (length aes_key)) [16; 24; 32]%nat = true ->
  fs s !! encrypted_file w track = Some (File encrypted) ->
  fs s !! decrypted_file w track <> Some Dir ->
  exists evs,
    decrypt_audio w track s =
    (Ok tt,
     {| fs := <[decrypted_file w track :=
                  File (snd (cipher_decrypt w aes_key initial_cipher encrypted))]>
                (fs s);
        trace := trace s ++ evs |}).
Proof.
  intros Hkey Hlen Hsrc Hdst.
  unfold decrypt_audio. run. rewrite Hkey, iv_decodes.
  unfold AES_new. rewrite Hlen.
  change {| counter := _; keystream := [] |} with initial_cipher.
  run. rewrite Hsrc. run.
  destruct (decrypt_loop_run w aes_key (decrypted_file w track)
              (S (length encrypted)) initial_cipher encrypted
              {| fs := <[decrypted_file w track := File []]> (fs s);
                 trace := (trace s ++ [EvOpen (encrypted_file w track) "rb"])
                          ++ [EvOpen (decrypted_file w track) "wb"] |} [])
    as [evs Hloop]; [lia | cbn [fs]; apply lookup_insert_eq |].
  cbn [fs trace app] in Hloop. rewrite insert_insert_eq in Hloop.
  destruct (fs s !! decrypted_file w track) as [[old |] |] eqn:Hold;
    [| congruence |]; cbn [fs trace]; rewrite Hloop; eexists;
    rewrite <- !app_assoc; reflexivity.
Qed.

(** C5: for every block cipher on 16-byte blocks, every 16-byte key and
    every encrypted content, of any length, [decrypt_audio] returns and
    leaves in the decrypted file a content that AES-CTR encryption under the
    same key and the fixed initialization vector turns back into the
    encrypted one, be it the standard's counter mode on the whole content or
    a fresh cipher object; that content is the same however the stream is cut
    into chunks. *)
Theorem decrypt_audio_round_trip (w : World) (track : TrackInfo) (s : state)
    (aes_key encrypted : list Z) :
  (forall k block, length block = 16%nat ->
                   length (aes_encrypt w k block) = 16%nat) ->
  fromhex_or_raise (Track.key track) = Ok aes_key ->
  length aes_key = 16%nat ->
  fs s !! encrypted_file w track = Some (File encrypted) ->
  fs s !! decrypted_file w track <> Some Dir ->
  exists decrypted,
    fst (decrypt_audio w track s) = Ok tt /\
    fs (snd (decrypt_audio w track s)) !! decrypted_file w track =
      Some (File decrypted) /\
    length decrypted = length encrypted /\
    ctr_encrypt w aes_key (counter initial_cipher) decrypted = encrypted /\
    snd (cipher_encrypt w aes_key initial_cipher decrypted) = encrypted /\
    (forall chunks, concat chunks = encrypted ->
       snd (decrypt_chunks w aes_key initial_cipher chunks) = decrypted).
Proof.
  intros Hblock Hkey Hlen Hsrc Hdst.
  destruct (decrypt_audio_run w track s aes_key encrypted Hkey) as [evs Hrun];
    [now rewrite Hlen | exact Hsrc | exact Hdst |].
  exists (snd (cipher_decrypt w aes_key initial_cipher encrypted)).
  rewrite Hrun. cbn [fst snd fs].
  split; [reflexivity |]. split; [apply lookup_insert_eq |]. split.
  - rewrite (cipher_decrypt_keystream w aes_key Hblock encrypted
               initial_cipher (length encrypted)) by lia.
    apply length_xor_bytes. cbn [keystream initial_cipher app].
    apply length_ctr_keystream, Hblock.
  - split; [apply (ctr_encrypt_decrypted w aes_key Hblock) |]. split.
    + unfold cipher_encrypt. now rewrite cipher_decrypt_twice.
    + intros chunks <-. now rewrite decrypt_chunks_concat.
Qed.

Lemma decrypt_audio_round_trip_witness :
  exists decrypted,
    fst (decrypt_audio Scenario.offline Scenario.song Scenario.fetched) = Ok tt
    /\ fs (snd (decrypt_audio Scenario.offline Scenario.song Scenario.fetched))
         !! decrypted_file Scenario.offline Scenario.song =
       Some (File decrypted)
    /\ length decrypted = length Scenario.stream
    /\ ctr_encrypt Scenario.offline Scenario.song_key (counter initial_cipher)
         decrypted = Scenario.stream
    /\ snd (cipher_encrypt Scenario.offline Scenario.song_key initial_cipher
              decrypted) = Scenario.stream
    /\ (forall chunks,
          concat chunks = Scenario.stream ->
          snd (decrypt_chunks Scenario.offline Scenario.song_key initial_cipher
                 chunks) = decrypted).
Proof.
  apply (decrypt_audio_round_trip Scenario.offline Scenario.song
           Scenario.fetched Scenario.song_key Scenario.stream).
  - intros k block Hblock. cbn [aes_encrypt Scenario.offline].
    now rewrite length_map.
  - reflexivity.
  - reflexivity.
  - reflexivity.
  - vm_compute. discriminate.
Defined.

(** C2, as the source has it: [decrypt_audio] propagates every exception.
    It returns only when the key is one the cipher accepts, the encrypted
    source is a regular file and the decrypted file can be written; in
    every other case it logs the exception and raises it again to its
    caller, leaving the files as they were: the error of the key, the
    [FileNotFoundError] of a source that does not exist, the
    [IsADirectoryError] of a source or a destination that is a directory.
    A missing source is no exception to this, whatever the key. *)
Theorem decrypt_audio_missing_source_raises (w : World) (track : TrackInfo)
    (s : state) :
  let raised e evs :=
    (@Raise unit e,
     {| fs := fs s;
        trace := trace s ++ evs ++
          [EvLog ERROR "Error decrypting audio file: %s" [exn_str e]] |}) in
  let source := encrypted_file w track in
  let destination := decrypted_file w track in
  match fromhex_or_raise (Track.key track) with
  | Raise e => decrypt_audio w track s = raised e []
  | Ok aes_key =>
      if existsb (Nat.eqb (length aes_key)) [16; 24; 32]%nat
      then
        match fs s !! source with
        | None =>
            decrypt_audio w track s =
            raised (FileNotFoundError source) [EvOpen source "rb"]
        | Some Dir =>
            decrypt_audio w track s =
            raised (IsADirectoryError source) [EvOpen source "rb"]
        | Some (File encrypted) =>
            match fs s !! destination with
            | Some Dir =>
                decrypt_audio w track s =
                raised (IsADirectoryError destination)
                  [EvOpen source "rb"; EvOpen destination "wb"]
            | _ =>
                exists evs,
                  decrypt_audio w track s =
                  (Ok tt,
                   {| fs := <[destination :=
                                File (snd (cipher_decrypt w aes_key
                                             initial_cipher encrypted))]>
                              (fs s);
                      trace := trace s ++ evs |})
            end
        end
      else
        decrypt_audio w track s =
        raised (ValueError "Incorrect AES key length") []
  end /\
  (fs s !! source = None ->
   exists e evs,
     decrypt_audio w track s = raised e evs /\
     (forall aes_key,
        fromhex_or_raise (Track.key track) = Ok aes_key ->
        existsb (Nat.eqb (length aes_key)) [16; 24; 32]%nat = true ->
        e = FileNotFoundError source)).
Proof.
  intros raised source destination. split.
  - destruct (fromhex_or_raise (Track.key track)) as [aes_key | e] eqn:Hkey.
    + destruct (existsb (Nat.eqb (length aes_key)) [16; 24; 32]%nat) eqn:Hlen.
      * destruct (fs s !! source) as [[encrypted |] |] eqn:Hsrc.
        -- destruct (fs s !! destination) as [[old |] |] eqn:Hdst;
             try (apply (decrypt_audio_run w track s aes_key encrypted
                           Hkey Hlen Hsrc); fold destination;
                  rewrite Hdst; discriminate).
           unfold decrypt_audio. run. rewrite Hkey, iv_decodes.
           unfold AES_new. rewrite Hlen. run.
           fold source. rewrite Hsrc. run. fold destination.
           rewrite Hdst. run. subst raised. cbn beta.
           now rewrite <- !app_assoc.
        -- unfold decrypt_audio. run. rewrite Hkey, iv_decodes.
           unfold AES_new. rewrite Hlen. run.
           fold source. rewrite Hsrc. run. subst raised. cbn beta.
           now rewrite <- !app_assoc.
        -- unfold decrypt_audio. run. rewrite Hkey, iv_decodes.
           unfold AES_new. rewrite Hlen. run.
           fold source. rewrite Hsrc. run. subst raised. cbn beta.
           now rewrite <- !app_assoc.
      * unfold decrypt_audio. run. rewrite Hkey, iv_decodes.
        unfold AES_new. rewrite Hlen. reflexivity.
    + unfold decrypt_audio. run. rewrite Hkey. reflexivity.
  - intros Hsrc. unfold decrypt_audio. run.
    destruct (fromhex_or_raise (Track.key track)) as [aes_key | e] eqn:Hkey.
    + rewrite iv_decodes. unfold AES_new.
      destruct (existsb (Nat.eqb (length aes_key)) [16; 24; 32]%nat) eqn:Hlen.
      * run. fold source. rewrite Hsrc. run.
        exists (FileNotFoundError source), [EvOpen source "rb"].
        split; [subst raised; cbn beta; now rewrite <- app_assoc
               | reflexivity].
      * exists (ValueError "Incorrect AES key length"), [].
        split; [reflexivity |].
        intros k Hk Hlenk. injection Hk as <-. congruence.
    + exists e, []. split; [reflexivity | discriminate].
Qed.

Lemma decrypt_audio_missing_source_raises_witness :
  exists e evs,
    decrypt_audio Scenario.offline Scenario.song Scenario.nothing =
    (Raise e,
     {| fs := fs Scenario.nothing;
        trace := trace Scenario.nothing ++ evs ++
          [EvLog ERROR "Error decrypting audio file: %s" [exn_str e]] |}) /\
    (forall aes_key,
       fromhex_or_raise (Track.key Scenario.song) = Ok aes_key ->
       existsb (Nat.eqb (length aes_key)) [16; 24; 32]%nat = true ->
       e = FileNotFoundError (encrypted_file Scenario.offline Scenario.song)).
Proof.
  apply (proj2 (decrypt_audio_missing_source_raises Scenario.offline
                  Scenario.song Scenario.nothing)).
  reflexivity.
Defined.

(** C2 as the specification words it fails: the source file of the track is
    missing, and [decrypt_audio] raises instead of returning. *)
Lemma decrypt_audio_missing_source_not_a_noop :
  fs Scenario.nothing !! encrypted_file Scenario.offline Scenario.song = None
  /\ fst (decrypt_audio Scenario.offline Scenario.song Scenario.nothing) =
     Raise (FileNotFoundError "downloads/4uLU6h.encrypted.ogg")
  /\ fst (decrypt_audio Scenario.offline Scenario.song Scenario.nothing) <>
     Ok tt.
Proof.
  split; [reflexivity |]. split; [vm_compute; reflexivity |].
  vm_compute. discriminate.
Qed.

(** ** Response parsing *)

Lemma valid_tracks_filter w entries :
  valid_tracks w entries = valid_tracks w (List.filter entry_kept entries).
Proof.
  induction entries as [| e rest IH]; [reflexivity |].
  cbn [valid_tracks List.filter].
  destruct (entry_kept e) eqn:Hkept; [| exact IH].
  cbn [valid_tracks]. rewrite Hkept, IH. reflexivity.
Qed.

Lemma valid_tracks_accepted w entries :
  (forall e, In e (List.filter entry_kept entries) ->
             MusicTrack_new w e = Ok (track_of e)) ->
  valid_tracks w entries =
  Ok (map track_of (List.filter entry_kept entries)).
Proof.
  induction entries as [| e rest IH]; intros Hacc; [reflexivity |].
  cbn [valid_tracks List.filter] in *.
  destruct (entry_kept e) eqn:Hkept.
  - rewrite (Hacc e) by apply in_eq.
    rewrite IH by (intros e' He'; apply Hacc; now apply in_cons).
    reflexivity.
  - now apply IH.
Qed.

Lemma lookup_has_key key items v :
  PyVal.lookup key items = Some v -> PyVal.has_key key items = true.
Proof.
  induction items as [| [k x] rest IH]; [discriminate |].
  cbn [PyVal.lookup PyVal.has_key existsb fst].
  destruct (String.eqb key k); [reflexivity |]. exact IH.
Qed.

(** [_parse_tracks_response] on a mapping whose [results] is a list. *)
Lemma parse_tracks_response_list w items entries :
  PyVal.lookup "results" items = Some (JList entries) ->
  _parse_tracks_response w (JDict items) =
  match valid_tracks w (List.filter entry_kept entries) with
  | Ok [] => Ok None
  | Ok (t :: ts) => Ok (Some {| tracks := t :: ts |})
  | Raise e => Raise e
  end.
Proof.
  intros Hres. unfold _parse_tracks_response.
  destruct items as [| item rest]; [discriminate |].
  cbn [PyVal.truthy PyVal.is_dict negb orb PyVal.contains PyVal.getitem].
  unfold mbind, result_bind.
  rewrite (lookup_has_key _ _ _ Hres), Hres. cbn [negb PyVal.iter].
  rewrite <- valid_tracks_filter.
  destruct (valid_tracks w entries) as [[| t ts] | e]; reflexivity.
Qed.

(** C8: a parse result is a track list only for a mapping that has the key
    [results], and then it is never empty; an entry that is null or not a
    mapping is not kept; on a list of entries the result is made of the
    entries kept, in their order, and is none when no entry is kept; the
    example of the specification parses to its two mappings, in order. *)
Theorem parse_tracks_response_filters (w : World) :
  (forall data pt,
     _parse_tracks_response w data = Ok (Some pt) ->
     exists items,
       data = JDict items /\ PyVal.has_key "results" items = true /\
       tracks pt <> []) /\
  (forall e, e = JNull \/ PyVal.is_dict e = false -> entry_kept e = false) /\
  (forall items entries,
     PyVal.lookup "results" items = Some (JList entries) ->
     (forall e, In e (List.filter entry_kept entries) ->
                MusicTrack_new w e = Ok (track_of e)) ->
     _parse_tracks_response w (JDict items) =
     Ok (match map track_of (List.filter entry_kept entries) with
         | [] => None
         | t :: ts => Some {| tracks := t :: ts |}
         end)) /\
  (forall first second,
     MusicTrack_accepts w (("id", JNum 1) :: first) = true ->
     MusicTrack_accepts w (("id", JNum 2) :: second) = true ->
     _parse_tracks_response w
       (JDict [("results",
                JList [JDict (("id", JNum 1) :: first); JNull;
                       JDict (("id", JNum 2) :: second);
                       JStr "not-a-dict"])]) =
     Ok (Some {| tracks := [ {| fields := ("id", JNum 1) :: first |};
                             {| fields := ("id", JNum 2) :: second |} ] |})).
Proof.
  split; [| split; [| split]].
  - intros data pt H. unfold _parse_tracks_response in H.
    destruct data as [| b | n | str | l | items];
      cbn [PyVal.is_dict negb orb] in H;
      rewrite ?orb_true_r in H; try discriminate H.
    destruct items as [| item rest]; [discriminate H |].
    cbn [PyVal.truthy negb orb PyVal.contains] in H.
    unfold mbind, result_bind in H.
    exists (item :: rest). split; [reflexivity |].
    destruct (PyVal.has_key "results" (item :: rest)); [| discriminate H].
    split; [reflexivity |]. cbn [negb] in H.
    destruct (PyVal.getitem "results" (JDict (item :: rest))) as [results |];
      [| discriminate H].
    destruct (PyVal.iter results) as [entries |]; [| discriminate H].
    destruct (valid_tracks w entries) as [[| t ts] |]; try discriminate H.
    injection H as <-. discriminate.
  - intros e [-> | He]; unfold entry_kept; [reflexivity |].
    rewrite He. apply andb_false_r.
  - intros items entries Hres Hacc.
    rewrite (parse_tracks_response_list w items entries Hres).
    rewrite <- valid_tracks_filter, (valid_tracks_accepted w entries Hacc).
    destruct (map track_of (List.filter entry_kept entries)); reflexivity.
  - intros first second H1 H2.
    unfold _parse_tracks_response, mbind, result_bind. cbn.
    rewrite H1, H2. reflexivity.
Qed.

(** ** Archive extraction *)










(** C10, where the source departs from it: the archive holds a member whose
    name goes up one directory. [zipfile] stores it below the download
    directory, and [_extract_zip] returns the download directory joined
    with the name as it is: there is no file at the path returned, and the
    file extracted is at a path that is not returned. *)
Lemma extract_zip_returns_path_without_file :
  let run := _extract_zip Cases.album_api "downloads/api/album.zip"
               Cases.album_on_disk in
  fst run = Ok ["downloads/01 - intro.mp3"; "downloads/../song.mp3"] /\
  fs (snd run) !! "downloads/01 - intro.mp3" =
    Some (File (Bytes.of_string "ID3 intro")) /\
  fs (snd run) !! "downloads/../song.mp3" = None /\
  fs (snd run) !! "downloads/song.mp3" =
    Some (File (Bytes.of_string "ID3 song")) /\
  fst (download_track Cases.album_api (Some Scenario.song) Scenario.nothing) =
    Ok (Files ["downloads/01 - intro.mp3"; "downloads/../song.mp3"]).
Proof. repeat split; vm_compute; reflexivity. Qed.

(** ** Traces only grow *)

Lemma appends_ret {A} (a : A) : appends (mret a : M A).
Proof. intros s. exists []. now rewrite app_nil_r. Qed.

Lemma appends_throw {A} (e : exn) : appends (throw e : M A).
Proof. intros s. exists []. now rewrite app_nil_r. Qed.

Lemma appends_lift {A} (r : result A) : appends (lift r).
Proof. intros s. exists []. now rewrite app_nil_r. Qed.

Lemma appends_emit (ev : event) : appends (emit ev).
Proof. intros s. now exists [ev]. Qed.

Lemma appends_log lvl fmt args : appends (log lvl fmt args).
Proof. apply appends_emit. Qed.

Lemma appends_get_fs : appends get_fs.
Proof. intros s. exists []. now rewrite app_nil_r. Qed.

Lemma appends_set_node path n : appends (set_node path n).
Proof. intros s. exists []. now rewrite app_nil_r. Qed.

Lemma appends_path_exists path : appends (path_exists path).
Proof. intros s. exists []. now rewrite app_nil_r. Qed.

Lemma appends_bind {A B} (m : M A) (k : A -> M B) :
  appends m -> (forall a, appends (k a)) -> appends (m ≫= k).
Proof.
  intros Hm Hk s. rewrite run_bind.
  destruct (Hm s) as [evs1 H1].
  destruct (m s) as [[a | e] s1]; cbn [snd] in *.
  - destruct (Hk a s1) as [evs2 H2]. exists (evs1 ++ evs2).
    now rewrite H2, H1, app_assoc.
  - now exists evs1.
Qed.

Lemma appends_try_except {A} (body : M A) (handler : exn -> M A) :
  appends body -> (forall e, appends (handler e)) ->
  appends (try_except body handler).
Proof.
  intros Hm Hk s. rewrite run_try_except.
  destruct (Hm s) as [evs1 H1].
  destruct (body s) as [[a | e] s1]; cbn [snd] in *.
  - now exists evs1.
  - destruct (Hk e s1) as [evs2 H2]. exists (evs1 ++ evs2).
    now rewrite H2, H1, app_assoc.
Qed.

Create HintDb appends.

#[local] Hint Resolve appends_ret appends_throw appends_lift appends_emit
  appends_log appends_get_fs appends_set_node appends_path_exists : appends.

(** Goes through a computation written with the operations above. *)
Ltac appends_step :=
  first
    [ apply appends_bind
    | apply appends_try_except
    | solve [auto with appends]
    | match goal with
      | |- appends (match ?x with _ => _ end) => destruct x
      | |- appends (if ?b then _ else _) => destruct b
      | |- forall _, _ => intro
      end ].

Ltac appends_all := repeat appends_step.

Lemma appends_open_existing path mode : appends (open_existing path mode).
Proof. unfold open_existing. appends_all. Qed.

Lemma appends_open_truncate path : appends (open_truncate path).
Proof. unfold open_truncate. appends_all. Qed.

Lemma appends_append_file path data : appends (append_file path data).
Proof. unfold append_file. appends_all. Qed.

#[local] Hint Resolve appends_open_existing appends_open_truncate
  appends_append_file : appends.

Lemma appends_client_download_file w url dest :
  appends (client_download_file w url dest).
Proof. unfold client_download_file. appends_all. Qed.

Lemma appends_rebuild_ogg filename : appends (rebuild_ogg filename).
Proof. unfold rebuild_ogg. appends_all. Qed.

Lemma appends_decrypt_loop w aes_key fout : forall fuel c fin,
  appends (decrypt_loop w aes_key fuel c fin fout).
Proof.
  induction fuel as [| fuel IH]; intros c fin; cbn [decrypt_loop].
  - auto with appends.
  - destruct (firstn chunk_size fin); [auto with appends |].
    destruct (cipher_decrypt w aes_key c _). appends_all.
Qed.

Lemma appends_decrypt_audio w track : appends (decrypt_audio w track).
Proof. unfold decrypt_audio. appends_all. apply appends_decrypt_loop. Qed.

Lemma appends_fix_audio w track : appends (fix_audio w track).
Proof. unfold fix_audio. appends_all. Qed.

(** ** Cleanup *)

(** One turn of the loop of [_cleanup]. *)
Lemma cleanup_one_run w file s :
  exists s' evs,
    try_except
      (found ← path_exists file;
       if (found : bool) then os_remove w file else mret tt)
      (fun e => log WARNING "Error removing %s: %s" [file; exn_str e]) s =
    (Ok tt, s') /\
    trace s' = trace s ++ evs /\
    (forall p, fs s !! p = None -> fs s' !! p = None) /\
    cleaned file s' evs.
Proof.
  unfold os_remove, cleaned, removal_logged. run.
  destruct (fs s !! file) as [[data |] |] eqn:Hfile; run; rewrite ?Hfile; run.
  - destruct (remove_denied w file); run.
    + eexists _, [_; _]. split; [reflexivity |]. cbn [fs trace].
      split; [now rewrite <- app_assoc |]. split; [auto |].
      right. exists (PermissionError file). right. now left.
    + eexists _, [_]. split; [reflexivity |]. cbn [fs trace].
      split; [reflexivity |]. split; [| left; apply lookup_delete_eq].
      intros p Hp. destruct (decide (file = p)) as [<- | Hne];
        [apply lookup_delete_eq | now rewrite lookup_delete_ne].
  - eexists _, [_; _]. split; [reflexivity |]. cbn [fs trace].
    split; [now rewrite <- app_assoc |]. split; [auto |].
    right. exists (IsADirectoryError file). right. now left.
  - exists s, []. split; [reflexivity |]. rewrite app_nil_r.
    split; [reflexivity |]. split; [auto | now left].
Qed.

(** [_cleanup] never raises; a path that did not exist does not appear, and
    each file it was given is gone or has its removal error logged. *)
Lemma cleanup_files_run w : forall files s,
  exists s' evs,
    cleanup_files w files s = (Ok tt, s') /\
    trace s' = trace s ++ evs /\
    (forall p, fs s !! p = None -> fs s' !! p = None) /\
    (forall p, In p files -> cleaned p s' evs).
Proof.
  induction files as [| file rest IH]; intros s.
  - exists s, []. rewrite app_nil_r. repeat split; auto. intros p [].
  - destruct (cleanup_one_run w file s)
      as (s1 & evs1 & Hrun1 & Htr1 & Hnone1 & Hclean1).
    destruct (IH s1) as (s' & evs & Hrun & Htr & Hnone & Hclean).
    exists s', (evs1 ++ evs). cbn [cleanup_files]. rewrite run_bind, Hrun1.
    split; [exact Hrun |].
    split; [now rewrite Htr, Htr1, app_assoc |].
    split; [auto |].
    intros p [<- | Hp].
    + destruct Hclean1 as [Hgone | [e Hlog]]; [left; auto |].
      right. exists e. apply in_or_app. now left.
    + destruct (Hclean p Hp) as [Hgone | [e Hlog]]; [now left |].
      right. exists e. apply in_or_app. now right.
Qed.

(** ** Paths and conditions *)

Lemma prefix_slash_app tc (s1 s2 : string) :
  s1 <> "" -> s2 <> "" ->
  String.get 0 s1 = String.get 0 s2 ->
  String.prefix "/" (tc +:+ s1) = String.prefix "/" (tc +:+ s2).
Proof.
  assert (Hhead : forall c s,
    String.prefix "/" (String c s) =
    if Ascii.ascii_dec "/" c then true else false)
    by (intros c s; cbn [String.prefix];
        destruct (Ascii.ascii_dec "/" c); destruct s; reflexivity).
  intros H1 H2 Hget. destruct tc as [| c tc].
  - destruct s1 as [| c1 s1], s2 as [| c2 s2]; try congruence.
    cbn in Hget. injection Hget as ->.
    change ("" +:+ String c2 s1) with (String c2 s1).
    change ("" +:+ String c2 s2) with (String c2 s2).
    now rewrite !Hhead.
  - change (String c tc +:+ s1) with (String c (tc +:+ s1)).
    change (String c tc +:+ s2) with (String c (tc +:+ s2)).
    now rewrite !Hhead.
Qed.

(** The source and the destination of [decrypt_audio] are two files. *)
Lemma intermediate_files_differ w track :
  encrypted_file w track <> decrypted_file w track.
Proof.
  unfold encrypted_file, decrypted_file, Py.path_join.
  rewrite (prefix_slash_app (Track.tc track) ".encrypted.ogg" ".decrypted.ogg")
    by (discriminate || reflexivity).
  destruct (String.prefix "/" _);
    [| destruct (_ || _)]; intros H;
    repeat (apply (inj (String.app _)) in H); discriminate H.
Qed.

(** The check of [search] passes exactly on a mapping whose [results] is
    there and true: for a list, not empty. *)
Lemma search_condition_true response :
  search_condition response = Ok true <->
  exists items results,
    response = JDict items /\
    PyVal.lookup "results" items = Some results /\
    PyVal.truthy results = true.
Proof.
  unfold search_condition, mbind, result_bind, mret, result_ret. split.
  - destruct response as [| b | n | str | l | items];
      cbn [PyVal.truthy PyVal.contains PyVal.getitem].
    + discriminate.
    + destruct b; discriminate.
    + destruct (negb (n =? 0)%Z); discriminate.
    + destruct (Py.truthy str); [| discriminate].
      destruct (Py.contains "results" str); discriminate.
    + destruct l; [discriminate |].
      destruct (existsb _ _); discriminate.
    + destruct items as [| item rest]; [discriminate |].
      destruct (PyVal.has_key "results" (item :: rest)); [| discriminate].
      destruct (PyVal.lookup "results" (item :: rest)) as [results |] eqn:Hres;
        [| discriminate].
      intros H. injection H as H. eauto.
  - intros (items & results & -> & Hres & Htrue).
    destruct items as [| item rest]; [discriminate |].
    cbn [PyVal.truthy PyVal.contains PyVal.getitem].
    now rewrite (lookup_has_key _ _ _ Hres), Hres, Htrue.
Qed.

(** ** The legacy path *)

Lemma cleaned_app_l path s' evs before :
  cleaned path s' evs -> cleaned path s' (before ++ evs).
Proof.
  intros [Hgone | [e Hlog]]; [now left |].
  right. exists e. apply in_or_app. now right.
Qed.

Lemma cleaned_app_r path s' evs after :
  cleaned path s' evs -> cleaned path s' (evs ++ after).
Proof.
  intros [Hgone | [e Hlog]]; [now left |].
  right. exists e. apply in_or_app. now left.
Qed.

(** How the [try] block of [process_original] ends when [_cleanup] is
    reached, and how its [except] block does. *)
Lemma process_original_tail w track s :
  exists s' evs,
    (_cleanup w track;;
     log INFO "Successfully processed track: %s" [output_file w track];;
     mret (Some (output_file w track))) s =
    (Ok (Some (output_file w track)), s') /\
    trace s' = trace s ++ evs /\
    cleaned (encrypted_file w track) s' evs /\
    cleaned (decrypted_file w track) s' evs.
Proof.
  destruct (cleanup_files_run w
              [encrypted_file w track; decrypted_file w track] s)
    as (s1 & evs & Hrun & Htr & _ & Hclean).
  unfold _cleanup. rewrite run_bind, Hrun. run.
  set (line := EvLog INFO "Successfully processed track: %s"
                 [output_file w track]).
  eexists _, (evs ++ [line]). split; [reflexivity |]. cbn [trace].
  split; [now rewrite Htr, app_assoc |].
  split; apply cleaned_app_r, Hclean; [now left | right; now left].
Qed.

Lemma process_original_except w track e s :
  exists s' evs,
    (log ERROR "Error processing track %s: %s" [Track.tc track; exn_str e];;
     _cleanup w track;;
     mret (@None string)) s = (Ok None, s') /\
    trace s' = trace s ++ evs /\
    In (EvLog ERROR "Error processing track %s: %s"
          [Track.tc track; exn_str e]) evs /\
    cleaned (encrypted_file w track) s' evs /\
    cleaned (decrypted_file w track) s' evs.
Proof.
  run.
  destruct (cleanup_files_run w
              [encrypted_file w track; decrypted_file w track]
              {| fs := fs s;
                 trace := trace s ++
                   [EvLog ERROR "Error processing track %s: %s"
                      [Track.tc track; exn_str e]] |})
    as (s1 & evs & Hrun & Htr & _ & Hclean).
  unfold _cleanup. rewrite Hrun.
  set (line := EvLog ERROR "Error processing track %s: %s"
                 [Track.tc track; exn_str e]) in *.
  exists s1, ([line] ++ evs). split; [reflexivity |]. cbn [trace] in Htr.
  split; [now rewrite Htr, app_assoc |]. split; [now left |].
  split; apply cleaned_app_l, Hclean; [now left | right; now left].
Qed.

Lemma appends_pipeline w track : appends (pipeline w track).
Proof.
  unfold pipeline.
  apply appends_bind; [apply appends_client_download_file | intros _].
  apply appends_bind; [apply appends_decrypt_audio | intros _].
  apply appends_bind; [apply appends_rebuild_ogg | intros _].
  apply appends_fix_audio.
Qed.

(** The [try] block of [process_original] is the four steps, then its
    end. *)
Lemma process_original_steps_pipeline w track s :
  process_original_steps w track s =
  match pipeline w track s with
  | (Ok _, s4) =>
      (_cleanup w track;;
       log INFO "Successfully processed track: %s" [output_file w track];;
       mret (Some (output_file w track))) s4
  | (Raise e, s4) => (Raise e, s4)
  end.
Proof.
  unfold process_original_steps, pipeline. rewrite !run_bind.
  destruct (client_download_file w _ _ s) as [[r1 | e] s1]; [| reflexivity].
  rewrite !run_bind.
  destruct (decrypt_audio w track s1) as [[[] | e] s2]; [| reflexivity].
  rewrite !run_bind.
  destruct (rebuild_ogg (decrypted_file w track) s2) as [[[] | e] s3];
    [| reflexivity].
  rewrite !run_bind.
  destruct (fix_audio w track s3) as [[[] | e] s4]; reflexivity.
Qed.

(** A run of [process_original] that enters the pipeline ends by one of
    the two blocks above: by the first when the four steps have returned,
    by the second when one of them has raised. *)
Lemma process_original_pipeline w track s :
  fs s !! output_file w track = None ->
  Py.truthy_opt (Track.cdnurl track) = true ->
  Py.truthy_opt (Track.key track) = true ->
  exists r s' evs,
    process_original w track s = (Ok r, s') /\
    trace s' = trace s ++ evs /\
    match fst (pipeline w track s) with
    | Ok _ => r = Some (output_file w track)
    | Raise e =>
        r = None /\
        In (EvLog ERROR "Error processing track %s: %s"
              [Track.tc track; exn_str e]) evs
    end /\
    cleaned (encrypted_file w track) s' evs /\
    cleaned (decrypted_file w track) s' evs.
Proof.
  intros Hout Hcdn Hkey.
  unfold process_original. rewrite run_bind.
  unfold path_exists at 1. rewrite Hout, Hcdn, Hkey. cbn [negb orb].
  rewrite run_try_except, process_original_steps_pipeline.
  destruct (appends_pipeline w track s) as [evs1 H1].
  destruct (pipeline w track s) as [[[] | e] s4]; cbn [fst snd] in *.
  - destruct (process_original_tail w track s4)
      as (s' & evs & Hrun & Htr & Henc & Hdec).
    rewrite Hrun. exists (Some (output_file w track)), s', (evs1 ++ evs).
    split; [reflexivity |]. split; [now rewrite Htr, H1, app_assoc |].
    split; [reflexivity |]. split; now apply cleaned_app_l.
  - destruct (process_original_except w track e s4)
      as (s' & evs & Hrun & Htr & Hline & Henc & Hdec).
    exists None, s', (evs1 ++ evs). split; [exact Hrun |].
    split; [now rewrite Htr, H1, app_assoc |].
    split; [split; [reflexivity | apply in_or_app; now right] |].
    split; now apply cleaned_app_l.
Qed.

(** C3, as the source has it: a run of [process_original] that enters the
    pipeline (no output file yet, a CDN URL and a key present) never raises.
    It returns the output path when the download, the decryption, the
    repair and the repack have all returned, and none when one of them has
    raised, the exception being logged; and afterwards each of the two
    intermediate files is gone, unless its removal raised during the run,
    which was logged and not raised. *)
Theorem process_original_cleans_up (w : World) (track : TrackInfo)
    (s : state) :
  fs s !! output_file w track = None ->
  Py.truthy_opt (Track.cdnurl track) = true ->
  Py.truthy_opt (Track.key track) = true ->
  exists r s' evs,
    process_original w track s = (Ok r, s') /\
    trace s' = trace s ++ evs /\
    match fst (pipeline w track s) with
    | Ok _ => r = Some (output_file w track)
    | Raise e =>
        r = None /\
        In (EvLog ERROR "Error processing track %s: %s"
              [Track.tc track; exn_str e]) evs
    end /\
    cleaned (encrypted_file w track) s' evs /\
    cleaned (decrypted_file w track) s' evs.
Proof. apply process_original_pipeline. Qed.

Lemma process_original_cleans_up_witness :
  exists r s' evs,
    process_original Scenario.offline Scenario.song Scenario.fetched =
      (Ok r, s') /\
    trace s' = trace Scenario.fetched ++ evs /\
    match fst (pipeline Scenario.offline Scenario.song Scenario.fetched) with
    | Ok _ => r = Some (output_file Scenario.offline Scenario.song)
    | Raise e =>
        r = None /\
        In (EvLog ERROR "Error processing track %s: %s"
              [Track.tc Scenario.song; exn_str e]) evs
    end /\
    cleaned (encrypted_file Scenario.offline Scenario.song) s' evs /\
    cleaned (decrypted_file Scenario.offline Scenario.song) s' evs.
Proof.
  apply (process_original_cleans_up Scenario.offline Scenario.song
           Scenario.fetched); reflexivity.
Defined.

(** C3 as the specification words it fails: the output file exists, so
    [process_original] returns its path at once, a terminal state, and the
    encrypted intermediate of the same track is still on disk. *)
Lemma process_original_early_return_keeps_intermediate :
  fst (process_original Scenario.offline Scenario.song Scenario.cached) =
    Ok (Some "downloads/4uLU6h.ogg") /\
  fs (snd (process_original Scenario.offline Scenario.song Scenario.cached))
    !! encrypted_file Scenario.offline Scenario.song =
    Some (File Scenario.stream).
Proof. split; vm_compute; reflexivity. Qed.

(** ** The orchestrator *)

(** What [download_track] does once its [try] block has raised. *)
Lemma download_track_raised w track s e s1 :
  download_track_try w track s = (Raise e, s1) ->
  download_track w (Some track) s = download_track_except w track e s1.
Proof.
  intros Htry. unfold download_track. now rewrite run_try_except, Htry.
Qed.

(** [process_original] on a track whose output file exists. *)
Lemma process_original_found w track s :
  is_Some (fs s !! output_file w track) ->
  process_original w track s =
  (Ok (Some (output_file w track)),
   {| fs := fs s;
      trace := trace s ++
        [EvLog INFO "Found existing file: %s" [output_file w track]] |}).
Proof.
  intros [n Hn]. unfold process_original. run. now rewrite Hn.
Qed.

(** C1, as the source has it: when the output file of a track exists,
    [process_original] returns its path, leaves the files as they are and
    adds one log line to the trace: no network call, no file opened, no
    cipher, no subprocess, no removal. [download_track] makes this check
    only through [process_original], that is for a Spotify track whose
    archive-based attempt has raised; it then returns the path of the output
    file that exists at that point, adding two log lines. *)
Theorem process_original_idempotent (w : World) (track : TrackInfo)
    (s : state) :
  is_Some (fs s !! output_file w track) ->
  process_original w track s =
    (Ok (Some (output_file w track)),
     {| fs := fs s;
        trace := trace s ++
          [EvLog INFO "Found existing file: %s" [output_file w track]] |}) /\
  (forall s0 e,
     is_spotify track = true ->
     download_track_try w track s0 = (Raise e, s) ->
     download_track w (Some track) s0 =
       (Ok (OneFile (output_file w track)),
        {| fs := fs s;
           trace := trace s ++
             [EvLog WARNING
                "Error downloading track %s with new Spotify API: %s, falling back to original"
                [Track.tc track; exn_str e];
              EvLog INFO "Found existing file: %s" [output_file w track]] |})).
Proof.
  intros Hout. split; [now apply process_original_found |].
  intros s0 e Hspotify Htry.
  rewrite (download_track_raised w track s0 e s Htry).
  unfold download_track_except. rewrite Hspotify.
  rewrite run_bind. unfold log at 1, emit. rewrite run_bind.
  rewrite process_original_found by exact Hout.
  cbn [fs trace of_option]. unfold mret, M_ret.
  now rewrite <- app_assoc.
Qed.

Lemma process_original_idempotent_witness :
  process_original Scenario.offline Scenario.song Scenario.cached =
    (Ok (Some (output_file Scenario.offline Scenario.song)),
     {| fs := fs Scenario.cached;
        trace := trace Scenario.cached ++
          [EvLog INFO "Found existing file: %s"
             [output_file Scenario.offline Scenario.song]] |}) /\
  (forall s0 e,
     is_spotify Scenario.song = true ->
     download_track_try Scenario.offline Scenario.song s0 =
       (Raise e, Scenario.cached) ->
     download_track Scenario.offline (Some Scenario.song) s0 =
       (Ok (OneFile (output_file Scenario.offline Scenario.song)),
        {| fs := fs Scenario.cached;
           trace := trace Scenario.cached ++
             [EvLog WARNING
                "Error downloading track %s with new Spotify API: %s, falling back to original"
                [Track.tc Scenario.song; exn_str e];
              EvLog INFO "Found existing file: %s"
                [output_file Scenario.offline Scenario.song]] |})).
Proof.
  apply (process_original_idempotent Scenario.offline Scenario.song
           Scenario.cached).
  exists (File (Bytes.of_string "OggS")). reflexivity.
Defined.

(** C1 as the specification words it fails for [download_track]: the output
    file of the track exists, and [download_track] calls the archive-based
    API and returns the path of what it has downloaded. *)
Lemma download_track_downloads_despite_output :
  fs Scenario.cached !! output_file Scenario.online Scenario.song =
    Some (File (Bytes.of_string "OggS")) /\
  fst (download_track Scenario.online (Some Scenario.song) Scenario.cached) =
    Ok (OneFile "downloads/api/track.mp3") /\
  trace (snd (download_track Scenario.online (Some Scenario.song)
                Scenario.cached)) =
    [EvDownload
       "https://spotify-dl-ss6q.onrender.com/download/?url=https://open.spotify.com/track/4uLU6hMCjMI75M1A2tKUQC"
       None].
Proof. repeat split; vm_compute; reflexivity. Qed.

(** [process_original] never raises. *)
Lemma process_original_returns w track s :
  exists r s', process_original w track s = (Ok r, s').
Proof.
  destruct (fs s !! output_file w track) as [n |] eqn:Hout.
  - rewrite process_original_found by (now exists n). eauto.
  - destruct (Py.truthy_opt (Track.cdnurl track)) eqn:Hcdn;
      [destruct (Py.truthy_opt (Track.key track)) eqn:Hkey |].
    + destruct (process_original_pipeline w track s Hout Hcdn Hkey)
        as (r & s' & evs & H & _).
      eauto.
    + unfold process_original. run. rewrite Hout, Hcdn, Hkey. run. eauto.
    + unfold process_original. run. rewrite Hout, Hcdn. run. eauto.
Qed.




Example download_track_no_id :
  download_track_try Scenario.offline Scenario.anonymous Scenario.nothing =
  (Raise (PyException "No track ID available"), Scenario.nothing).
Proof. reflexivity. Qed.

Example download_track_other_platform :
  download_track Scenario.offline (Some Scenario.cloud_song) Scenario.nothing =
  (Ok NoFile,
   {| fs := ∅;
      trace :=
        [EvDownload "https://cdn.example/audio/42" (Some "downloads/sc42.mp3");
         EvLog WARNING
           "Error downloading track %s with new Spotify API: %s, falling back to original"
           ["sc42"; "offline"];
         EvLog ERROR "Error downloading track %s: %s" ["sc42"; "offline"]] |}).
Proof. reflexivity. Qed.

(** ** Search *)

(** The legacy search, when the legacy API is configured: one request to
    its [search_track] endpoint, whose answer is parsed. *)
Lemma search_legacy_run w self q s :
  Py.truthy_opt (api_url self) = true ->
  Py.truthy_opt (api_key self) = true ->
  search_legacy w self q s =
  (data ← client_make_request w
            (default "" (api_url self) +:+ "/search_track") [("q", q)];
   parse_if_data w data) s.
Proof.
  intros Hurl Hkey. unfold search_legacy, _make_api_request.
  now rewrite Hurl, Hkey.
Qed.

Lemma search_legacy_outcome w self q s :
  search_legacy w self q s = legacy_search_outcome w self q s.
Proof.
  unfold search_legacy, legacy_search_outcome, _make_api_request.
  destruct (Py.truthy_opt (api_url self)), (Py.truthy_opt (api_key self));
    cbn [negb orb andb]; try reflexivity.
  unfold client_make_request, parse_if_data. run.
  change ("/" +:+ Py.lstrip_slash "search_track") with "/search_track".
  destruct (make_request w _ _) as [data | e]; [| reflexivity].
  now destruct (PyVal.truthy data).
Qed.

(** C4, as the source has it: for a text query, an exception of the primary
    search call is caught and logged, and [search] then runs the legacy
    search and returns its result; when the primary call returns, [search]
    runs the legacy search unless the response passes the check of the
    source and parses, in which case the parse result is returned and no
    legacy call is made. The check passes exactly on a mapping whose
    [results] is there and not empty. The legacy search requests the legacy
    endpoint and returns the parsed answer when the legacy API is
    configured; when it is not, it logs an error, makes no request and
    returns none. *)
Theorem search_falls_back (w : World) (self : ApiData) (q : string)
    (s : state) :
  query self = Some q ->
  Py.truthy q = true ->
  is_valid w self (Some q) = false ->
  let warned e s1 :=
    {| fs := fs s1;
       trace := trace s1 ++
         [EvLog WARNING "New Spotify search API failed: %s" [exn_str e]] |} in
  let legacy := legacy_search_outcome w self q in
  match client_make_request w "https://spotify-dl-ss6q.onrender.com/search"
          [("q", q)] s with
  | (Raise e, s1) => search w self s = legacy (warned e s1)
  | (Ok response, s1) =>
      match search_condition response with
      | Ok true =>
          match _parse_tracks_response w response with
          | Ok r => search w self s = (Ok r, s1)
          | Raise e => search w self s = legacy (warned e s1)
          end
      | Ok false => search w self s = legacy s1
      | Raise e => search w self s = legacy (warned e s1)
      end
  end /\
  (forall response,
     search_condition response = Ok true <->
     exists items results,
       response = JDict items /\
       PyVal.lookup "results" items = Some results /\
       PyVal.truthy results = true).
Proof.
  intros Hq Hquery Hvalid warned legacy. subst legacy.
  split; [| apply search_condition_true].
  unfold search. rewrite Hq. cbn [Py.truthy_opt default].
  rewrite Hquery, Hvalid. cbn [negb].
  rewrite run_bind, run_try_except. unfold search_primary.
  rewrite run_bind.
  destruct (client_make_request w _ _ s) as [[response | e] s1];
    [| apply search_legacy_outcome].
  rewrite run_bind. unfold lift at 1.
  destruct (search_condition response) as [[] | e];
    [| apply search_legacy_outcome ..].
  rewrite run_bind. unfold lift at 1.
  destruct (_parse_tracks_response w response) as [r | e];
    [reflexivity | apply search_legacy_outcome].
Qed.

Lemma search_falls_back_witness :
  let warned e s1 :=
    {| fs := fs s1;
       trace := trace s1 ++
         [EvLog WARNING "New Spotify search API failed: %s" [exn_str e]] |} in
  let legacy :=
    legacy_search_outcome Scenario.offline Scenario.text_search
      "around the world" in
  match client_make_request Scenario.offline
          "https://spotify-dl-ss6q.onrender.com/search"
          [("q", "around the world")] Scenario.nothing with
  | (Raise e, s1) =>
      search Scenario.offline Scenario.text_search Scenario.nothing =
      legacy (warned e s1)
  | (Ok response, s1) =>
      match search_condition response with
      | Ok true =>
          match _parse_tracks_response Scenario.offline response with
          | Ok r =>
              search Scenario.offline Scenario.text_search Scenario.nothing =
              (Ok r, s1)
          | Raise e =>
              search Scenario.offline Scenario.text_search Scenario.nothing =
              legacy (warned e s1)
          end
      | Ok false =>
          search Scenario.offline Scenario.text_search Scenario.nothing =
          legacy s1
      | Raise e =>
          search Scenario.offline Scenario.text_search Scenario.nothing =
          legacy (warned e s1)
      end
  end /\
  (forall response,
     search_condition response = Ok true <->
     exists items results,
       response = JDict items /\
       PyVal.lookup "results" items = Some results /\
       PyVal.truthy results = true).
Proof.
  apply (search_falls_back Scenario.offline Scenario.text_search
           "around the world" Scenario.nothing); reflexivity.
Defined.

(** C4 as the specification words it fails: no legacy API is configured,
    the primary search call throws, the exception is caught and logged, and
    no legacy endpoint is called: an error is logged and the result is
    none. *)
Lemma search_makes_no_legacy_call_unconfigured :
  search Scenario.offline Cases.unconfigured Scenario.nothing =
  (Ok None,
   {| fs := ∅;
      trace :=
        [EvRequest "https://spotify-dl-ss6q.onrender.com/search"
           [("q", "around the world")];
         EvLog WARNING "New Spotify search API failed: %s" ["offline"];
         EvLog ERROR "API configuration missing" []] |}).
Proof. reflexivity. Qed.

(** * Further properties of the pipeline *)

(** ** The three files of a track *)

(** The output file of a track is neither of its intermediate files. *)
Lemma output_file_not_intermediate w track :
  output_file w track <> encrypted_file w track /\
  output_file w track <> decrypted_file w track.
Proof.
  unfold output_file, encrypted_file, decrypted_file, Py.path_join.
  rewrite (prefix_slash_app (Track.tc track) ".ogg" ".encrypted.ogg")
    by (discriminate || reflexivity).
  rewrite (prefix_slash_app (Track.tc track) ".decrypted.ogg" ".encrypted.ogg")
    by (discriminate || reflexivity).
  split;
    (destruct (String.prefix "/" _);
       [| destruct (_ || _)]; intros H;
       repeat (apply (inj (String.app _)) in H); discriminate H).
Qed.

Lemma cleanup_one_fs w file s :
  exists tr,
    try_except
      (found ← path_exists file;
       if (found : bool) then os_remove w file else mret tt)
      (fun e => log WARNING "Error removing %s: %s" [file; exn_str e]) s =
    (Ok tt, {| fs := after_removal w file (fs s); trace := tr |}).
Proof.
  unfold os_remove, after_removal. run.
  destruct (fs s !! file) as [[data |] |] eqn:Hfile; run; rewrite ?Hfile; run.
  - destruct (remove_denied w file); run; eexists; reflexivity.
  - eexists; reflexivity.
  - exists (trace s). now destruct s.
Qed.

Lemma cleanup_files_fs w : forall files s,
  exists tr,
    cleanup_files w files s =
    (Ok tt, {| fs := fold_left (fun m f => after_removal w f m) files (fs s);
               trace := tr |}).
Proof.
  induction files as [| file rest IH]; intros s.
  - exists (trace s). now destruct s.
  - cbn [cleanup_files fold_left]. rewrite run_bind.
    destruct (cleanup_one_fs w file s) as [tr1 ->].
    destruct (IH {| fs := after_removal w file (fs s); trace := tr1 |})
      as [tr ->].
    now exists tr.
Qed.

Lemma after_removal_lookup w file files p :
  after_removal w file files !! p =
  if decide (file = p)
  then match files !! p with
       | Some (File d) => if remove_denied w p then Some (File d) else None
       | o => o
       end
  else files !! p.
Proof.
  unfold after_removal.
  destruct (decide (file = p)) as [<- | Hne].
  - destruct (files !! file) as [[d |] |] eqn:Hfile; rewrite ?Hfile; auto.
    destruct (remove_denied w file); [exact Hfile | apply lookup_delete_eq].
  - destruct (files !! file) as [[d |] |]; auto.
    destruct (remove_denied w file); [reflexivity |].
    now apply lookup_delete_ne.
Qed.

(** X1: [_cleanup] never raises and touches the two intermediate files only:
    every other path, the output file of the track among them, is as it
    was; an intermediate that is a regular file is removed unless the
    operating system refuses, and one that is a directory or is missing is
    left as it is. *)
Theorem cleanup_touches_intermediates_only (w : World) (track : TrackInfo)
    (s : state) :
  exists s',
    _cleanup w track s = (Ok tt, s') /\
    (forall p, p <> encrypted_file w track -> p <> decrypted_file w track ->
               fs s' !! p = fs s !! p) /\
    fs s' !! output_file w track = fs s !! output_file w track /\
    (forall p, p = encrypted_file w track \/ p = decrypted_file w track ->
       fs s' !! p =
       match fs s !! p with
       | Some (File d) => if remove_denied w p then Some (File d) else None
       | o => o
       end).
Proof.
  unfold _cleanup.
  destruct (cleanup_files_fs w
              [encrypted_file w track; decrypted_file w track] s) as [tr ->].
  eexists. split; [reflexivity |]. cbn [fs fold_left].
  pose proof (intermediate_files_differ w track) as Hdiff.
  destruct (output_file_not_intermediate w track) as [Hout1 Hout2].
  assert (Hother : forall p,
    p <> encrypted_file w track -> p <> decrypted_file w track ->
    after_removal w (decrypted_file w track)
      (after_removal w (encrypted_file w track) (fs s)) !! p = fs s !! p).
  { intros p H1 H2. rewrite !after_removal_lookup.
    rewrite !decide_False by congruence. reflexivity. }
  split; [exact Hother |]. split; [now apply Hother |].
  intros p [-> | ->]; rewrite !after_removal_lookup.
  - rewrite decide_False by congruence. now rewrite decide_True.
  - rewrite decide_True by reflexivity.
    now rewrite decide_False by exact Hdiff.
Qed.

(** ** The decryptor and its files *)

(** Where [decrypt_audio] leaves the file system: untouched, or with the
    decrypted file written. *)
Lemma decrypt_audio_fs w track s :
  fs (snd (decrypt_audio w track s)) = fs s \/
  exists data,
    fs (snd (decrypt_audio w track s)) =
    <[decrypted_file w track := File data]> (fs s).
Proof.
  unfold decrypt_audio. run.
  destruct (fromhex_or_raise (Track.key track)) as [aes_key | e];
    [| now left].
  rewrite iv_decodes. unfold AES_new.
  destruct (existsb _ _); [| now left].
  change {| counter := _; keystream := [] |} with initial_cipher.
  run.
  destruct (fs s !! encrypted_file w track) as [[encrypted |] |] eqn:Hsrc;
    run; rewrite ?Hsrc; run; [| now left ..].
  destruct (fs s !! decrypted_file w track) as [[old |] |] eqn:Hdst;
    run; [| now left |].
  all: edestruct (decrypt_loop_run w aes_key (decrypted_file w track)
                    (S (length encrypted)) initial_cipher encrypted
                    {| fs := <[decrypted_file w track := File []]> (fs s);
                       trace := (trace s ++
                                 [EvOpen (encrypted_file w track) "rb"]) ++
                                [EvOpen (decrypted_file w track) "wb"] |} [])
         as [evs Hloop]; [lia | cbn [fs]; apply lookup_insert_eq |];
    rewrite Hloop; cbn [fs snd]; rewrite insert_insert_eq; right; eauto.
Qed.

(** X2: whatever its outcome, [decrypt_audio] changes no file but the
    decrypted one; the encrypted source in particular is as it was. *)
Theorem decrypt_audio_touches_destination_only (w : World)
    (track : TrackInfo) (s : state) :
  (forall p, p <> decrypted_file w track ->
             fs (snd (decrypt_audio w track s)) !! p = fs s !! p) /\
  fs (snd (decrypt_audio w track s)) !! encrypted_file w track =
  fs s !! encrypted_file w track.
Proof.
  assert (H : forall p, p <> decrypted_file w track ->
                        fs (snd (decrypt_audio w track s)) !! p = fs s !! p).
  { intros p Hp.
    destruct (decrypt_audio_fs w track s) as [-> | [data ->]];
      [reflexivity |].
    now rewrite lookup_insert_ne by congruence. }
  split; [exact H |]. apply H, intermediate_files_differ.
Qed.

(** X3: with a key that is missing, is not hexadecimal or has not the
    length of an AES key, [decrypt_audio] raises a [TypeError] or a
    [ValueError] before it opens any file: the files are as they were and
    the trace gains the error line only. *)
Theorem decrypt_audio_rejects_key (w : World) (track : TrackInfo)
    (s : state) :
  usable_key track = false ->
  exists e,
    decrypt_audio w track s =
    (Raise e,
     {| fs := fs s;
        trace := trace s ++
          [EvLog ERROR "Error decrypting audio file: %s" [exn_str e]] |}) /\
    ((exists msg, e = TypeError msg) \/ (exists msg, e = ValueError msg)).
Proof.
  unfold usable_key, decrypt_audio. intros Hkey. run.
  destruct (fromhex_or_raise (Track.key track)) as [aes_key | e] eqn:Hhex.
  - rewrite iv_decodes. unfold AES_new. rewrite Hkey. eauto 6.
  - exists e. split; [reflexivity |].
    unfold fromhex_or_raise in Hhex.
    destruct (Track.key track) as [hex |];
      [destruct (Bytes.fromhex hex) |]; inversion Hhex; eauto.
Qed.

Lemma decrypt_audio_rejects_key_witness :
  exists e,
    decrypt_audio Scenario.offline Cases.bad_key_song Scenario.fetched =
    (Raise e,
     {| fs := fs Scenario.fetched;
        trace := trace Scenario.fetched ++
          [EvLog ERROR "Error decrypting audio file: %s" [exn_str e]] |}) /\
    ((exists msg, e = TypeError msg) \/ (exists msg, e = ValueError msg)).
Proof.
  apply (decrypt_audio_rejects_key Scenario.offline Cases.bad_key_song
           Scenario.fetched).
  reflexivity.
Defined.

(** ** The legacy path, step by step *)

Lemma usable_key_truthy track :
  usable_key track = true -> Py.truthy_opt (Track.key track) = true.
Proof.
  unfold usable_key, fromhex_or_raise.
  destruct (Track.key track) as [[| c hex] |]; [discriminate | auto |
    discriminate].
Qed.

(** A run of [process_original] that gets as far as ffmpeg: the client has
    saved the stream as the encrypted file, the key is usable, the decrypted
    file can be written. The result then depends on ffmpeg only: the output
    path when it exits with 0, none when it exits with another code or
    cannot be started. The output path holds what ffmpeg has written, each
    intermediate is removed unless the operating system refuses, and no
    other path is touched. *)
Lemma process_original_ffmpeg w track s aes_key data :
  fs s !! output_file w track = None ->
  Py.truthy_opt (Track.cdnurl track) = true ->
  fromhex_or_raise (Track.key track) = Ok aes_key ->
  existsb (Nat.eqb (length aes_key)) [16; 24; 32]%nat = true ->
  download_file w (default "" (Track.cdnurl track))
    (Some (encrypted_file w track)) = DlSaves (encrypted_file w track) data ->
  fs s !! decrypted_file w track <> Some Dir ->
  let outcome :=
    ffmpeg w (files_for_ffmpeg w track aes_key data (fs s))
      (ffmpeg_argv w track) in
  exists s',
    process_original w track s =
      (Ok match outcome with
          | FfExits code _ _ =>
              if (code =? 0)%Z then Some (output_file w track) else None
          | FfNotStarted _ => None
          end, s') /\
    fs s' !! output_file w track =
      match outcome with
      | FfExits _ _ written => File <$> written
      | FfNotStarted _ => None
      end /\
    fs s' !! encrypted_file w track =
      (if remove_denied w (encrypted_file w track)
       then Some (File data) else None) /\
    fs s' !! decrypted_file w track =
      (if remove_denied w (decrypted_file w track)
       then Some (File (repaired_stream w aes_key data)) else None) /\
    (forall p, p <> output_file w track -> p <> encrypted_file w track ->
               p <> decrypted_file w track -> fs s' !! p = fs s !! p).
Proof.
  intros Hout Hcdn Hkey Hlen Hdl Hdst outcome.
  pose proof (intermediate_files_differ w track) as Hdiff.
  destruct (output_file_not_intermediate w track) as [Hout1 Hout2].
  assert (Htruthy : Py.truthy_opt (Track.key track) = true)
    by (apply usable_key_truthy; unfold usable_key; now rewrite Hkey).
  (* the four steps *)
  set (s1 := {| fs := <[encrypted_file w track := File data]> (fs s);
                trace := trace s ++
                  [EvDownload (default "" (Track.cdnurl track))
                     (Some (encrypted_file w track))] |}).
  assert (H1 : client_download_file w (default "" (Track.cdnurl track))
                 (Some (encrypted_file w track)) s =
               (Ok (Downloaded (encrypted_file w track)), s1))
    by (unfold client_download_file; run; rewrite Hdl; reflexivity).
  destruct (decrypt_audio_run w track s1 aes_key data Hkey Hlen)
    as [evs2 H2].
  { cbn [fs s1]. apply lookup_insert_eq. }
  { cbn [fs s1]. rewrite lookup_insert_ne by exact Hdiff. exact Hdst. }
  set (s2 := {| fs := _; trace := trace s1 ++ evs2 |}) in H2.
  pose proof (rebuild_ogg_run (decrypted_file w track) s2) as H3.
  cbn [fs s2] in H3. rewrite lookup_insert_eq, insert_insert_eq in H3.
  cbn [fs s1] in H3.
  fold (repaired_stream w aes_key data) in H3.
  fold (files_for_ffmpeg w track aes_key data (fs s)) in H3.
  set (s3 := {| fs := files_for_ffmpeg w track aes_key data (fs s);
                trace := _ |}) in H3.
  set (written := match outcome with
                  | FfExits _ _ wr => wr
                  | FfNotStarted _ => None
                  end).
  set (files4 := match written with
                 | Some d => <[output_file w track := File d]> (fs s3)
                 | None => fs s3
                 end).
  assert (H4 : exists tr4,
    match outcome with
    | FfExits code _ _ =>
        if (code =? 0)%Z
        then fix_audio w track s3 = (Ok tt, {| fs := files4; trace := tr4 |})
        else fix_audio w track s3 =
             (Raise (CalledProcessError code "ffmpeg"),
              {| fs := files4; trace := tr4 |})
    | FfNotStarted e =>
        fix_audio w track s3 = (Raise e, {| fs := files4; trace := tr4 |})
    end).
  { unfold fix_audio. fold (ffmpeg_argv w track). run.
    cbn [fs s3]. fold outcome. subst files4 written.
    destruct outcome as [e | code stderr [d |]]; run;
      try (destruct (code =? 0)%Z; run); eexists; reflexivity. }
  destruct H4 as [tr4 H4].
  assert (Hfinal :
    let files5 := fold_left (fun m f => after_removal w f m)
                    [encrypted_file w track; decrypted_file w track] files4 in
    files5 !! output_file w track = File <$> written /\
    files5 !! encrypted_file w track =
      (if remove_denied w (encrypted_file w track)
       then Some (File data) else None) /\
    files5 !! decrypted_file w track =
      (if remove_denied w (decrypted_file w track)
       then Some (File (repaired_stream w aes_key data)) else None) /\
    (forall p, p <> output_file w track -> p <> encrypted_file w track ->
               p <> decrypted_file w track -> files5 !! p = fs s !! p)).
  { cbn [fold_left].
    assert (Hfiles4 : forall p, p <> output_file w track ->
              files4 !! p = files_for_ffmpeg w track aes_key data (fs s) !! p).
    { intros p Hp. subst files4. cbn [fs s3].
      destruct written; [now rewrite lookup_insert_ne by congruence |
                         reflexivity]. }
    unfold files_for_ffmpeg in Hfiles4.
    repeat split.
    - rewrite !after_removal_lookup, !decide_False by congruence.
      subst files4. cbn [fs s3]. unfold files_for_ffmpeg.
      destruct written; cbn [fmap option_fmap option_map];
        [apply lookup_insert_eq |].
      now rewrite !lookup_insert_ne by congruence.
    - rewrite !after_removal_lookup.
      rewrite decide_False by congruence. rewrite decide_True by reflexivity.
      rewrite Hfiles4 by congruence.
      rewrite lookup_insert_ne, lookup_insert_eq by congruence. reflexivity.
    - rewrite !after_removal_lookup.
      rewrite decide_True by reflexivity. rewrite decide_False by congruence.
      rewrite Hfiles4 by congruence.
      rewrite lookup_insert_eq. reflexivity.
    - intros p Hp1 Hp2 Hp3.
      rewrite !after_removal_lookup, !decide_False by congruence.
      rewrite Hfiles4 by exact Hp1.
      now rewrite !lookup_insert_ne by congruence. }
  assert (Hwritten : match outcome with
                     | FfExits _ _ wr => File <$> wr
                     | FfNotStarted _ => None
                     end = File <$> written)
    by (subst written; now destruct outcome).
  rewrite Hwritten.
  assert (Hraise : forall e tr,
    fix_audio w track s3 = (Raise e, {| fs := files4; trace := tr |}) ->
    exists s',
      process_original w track s = (Ok None, s') /\
      fs s' =
        fold_left (fun m f => after_removal w f m)
          [encrypted_file w track; decrypted_file w track] files4).
  { intros e tr Hfix.
    unfold process_original. run. rewrite Hout, Hcdn, Htruthy.
    cbn [negb orb]. unfold process_original_steps.
    rewrite run_bind, H1, run_bind, H2, run_bind, H3, run_bind, Hfix. run.
    destruct (cleanup_files_fs w
                [encrypted_file w track; decrypted_file w track]
                {| fs := files4;
                   trace := tr ++
                     [EvLog ERROR "Error processing track %s: %s"
                        [Track.tc track; exn_str e]] |})
      as [tr5 H5].
    unfold _cleanup. rewrite H5. eexists. split; reflexivity. }
  clearbody outcome.
  destruct outcome as [e | code stderr wr].
  - destruct (Hraise _ _ H4) as (s' & Hrun & Hfs).
    exists s'. split; [exact Hrun |]. rewrite Hfs. exact Hfinal.
  - destruct (code =? 0)%Z.
    + unfold process_original. run. rewrite Hout, Hcdn, Htruthy.
      cbn [negb orb]. unfold process_original_steps.
      rewrite run_bind, H1, run_bind, H2, run_bind, H3, run_bind, H4.
      destruct (cleanup_files_fs w
                  [encrypted_file w track; decrypted_file w track]
                  {| fs := files4; trace := tr4 |}) as [tr5 H5].
      unfold _cleanup. rewrite run_bind, H5. run.
      eexists. split; [reflexivity |]. cbn [fs]. exact Hfinal.
    + destruct (Hraise _ _ H4) as (s' & Hrun & Hfs).
      exists s'. split; [exact Hrun |]. rewrite Hfs. exact Hfinal.
Qed.

Lemma process_original_repack w track s aes_key data code stderr written :
  fs s !! output_file w track = None ->
  Py.truthy_opt (Track.cdnurl track) = true ->
  fromhex_or_raise (Track.key track) = Ok aes_key ->
  existsb (Nat.eqb (length aes_key)) [16; 24; 32]%nat = true ->
  download_file w (default "" (Track.cdnurl track))
    (Some (encrypted_file w track)) = DlSaves (encrypted_file w track) data ->
  fs s !! decrypted_file w track <> Some Dir ->
  ffmpeg w (files_for_ffmpeg w track aes_key data (fs s))
    (ffmpeg_argv w track) = FfExits code stderr written ->
  exists s',
    process_original w track s =
      (Ok (if (code =? 0)%Z then Some (output_file w track) else None), s') /\
    fs s' !! output_file w track = File <$> written /\
    fs s' !! encrypted_file w track =
      (if remove_denied w (encrypted_file w track)
       then Some (File data) else None) /\
    fs s' !! decrypted_file w track =
      (if remove_denied w (decrypted_file w track)
       then Some (File (repaired_stream w aes_key data)) else None) /\
    (forall p, p <> output_file w track -> p <> encrypted_file w track ->
               p <> decrypted_file w track -> fs s' !! p = fs s !! p).
Proof.
  intros Hout Hcdn Hkey Hlen Hdl Hdst Hff.
  pose proof (process_original_ffmpeg w track s aes_key data
                Hout Hcdn Hkey Hlen Hdl Hdst) as H.
  cbv zeta in H. now rewrite Hff in H.
Qed.

(** X4: a run of [process_original] in which the client saves the stream as
    the encrypted file, the key is usable and the decrypted file can be
    written hands to ffmpeg the stream decrypted and then repaired, and
    returns the output path exactly when ffmpeg exits with 0: it returns
    none when ffmpeg exits with another code and when ffmpeg cannot be
    started. It leaves at the output path what ffmpeg has written, removes
    each intermediate unless the operating system refuses, and touches no
    other path. *)
Theorem process_original_end_to_end (w : World) (track : TrackInfo)
    (s : state) (aes_key data : list Z) :
  fs s !! output_file w track = None ->
  Py.truthy_opt (Track.cdnurl track) = true ->
  fromhex_or_raise (Track.key track) = Ok aes_key ->
  existsb (Nat.eqb (length aes_key)) [16; 24; 32]%nat = true ->
  download_file w (default "" (Track.cdnurl track))
    (Some (encrypted_file w track)) = DlSaves (encrypted_file w track) data ->
  fs s !! decrypted_file w track <> Some Dir ->
  let outcome :=
    ffmpeg w (files_for_ffmpeg w track aes_key data (fs s))
      (ffmpeg_argv w track) in
  exists s',
    process_original w track s =
      (Ok match outcome with
          | FfExits code _ _ =>
              if (code =? 0)%Z then Some (output_file w track) else None
          | FfNotStarted _ => None
          end, s') /\
    fs s' !! output_file w track =
      match outcome with
      | FfExits _ _ written => File <$> written
      | FfNotStarted _ => None
      end /\
    fs s' !! encrypted_file w track =
      (if remove_denied w (encrypted_file w track)
       then Some (File data) else None) /\
    fs s' !! decrypted_file w track =
      (if remove_denied w (decrypted_file w track)
       then Some (File (repaired_stream w aes_key data)) else None) /\
    (forall p, p <> output_file w track -> p <> encrypted_file w track ->
               p <> decrypted_file w track -> fs s' !! p = fs s !! p).
Proof. apply process_original_ffmpeg. Qed.

Lemma process_original_end_to_end_witness :
  exists s',
    process_original Cases.studio Scenario.song Scenario.nothing =
      (Ok (Some (output_file Cases.studio Scenario.song)), s') /\
    fs s' !! output_file Cases.studio Scenario.song =
      Some (File (Bytes.of_string "OggS, repacked")) /\
    fs s' !! encrypted_file Cases.studio Scenario.song = None /\
    fs s' !! decrypted_file Cases.studio Scenario.song = None /\
    (forall p, p <> output_file Cases.studio Scenario.song ->
               p <> encrypted_file Cases.studio Scenario.song ->
               p <> decrypted_file Cases.studio Scenario.song ->
               fs s' !! p = fs Scenario.nothing !! p).
Proof.
  apply (process_original_end_to_end Cases.studio Scenario.song
           Scenario.nothing Scenario.song_key Scenario.stream);
    try reflexivity.
  vm_compute. discriminate.
Defined.

(** X5: [process_original] never removes the output file. When ffmpeg has
    written to it and then exits with another code than 0, the run returns
    none and the file stays; the next run finds it and returns its path. *)
Theorem process_original_failed_repack_stays (w : World) (track : TrackInfo)
    (s : state) (aes_key data partial : list Z) (code : Z) (stderr : string) :
  fs s !! output_file w track = None ->
  Py.truthy_opt (Track.cdnurl track) = true ->
  fromhex_or_raise (Track.key track) = Ok aes_key ->
  existsb (Nat.eqb (length aes_key)) [16; 24; 32]%nat = true ->
  download_file w (default "" (Track.cdnurl track))
    (Some (encrypted_file w track)) = DlSaves (encrypted_file w track) data ->
  fs s !! decrypted_file w track <> Some Dir ->
  ffmpeg w (files_for_ffmpeg w track aes_key data (fs s))
    (ffmpeg_argv w track) = FfExits code stderr (Some partial) ->
  code <> 0%Z ->
  exists s',
    process_original w track s = (Ok None, s') /\
    fs s' !! output_file w track = Some (File partial) /\
    fst (process_original w track s') = Ok (Some (output_file w track)).
Proof.
  intros Hout Hcdn Hkey Hlen Hdl Hdst Hff Hcode.
  destruct (process_original_repack w track s aes_key data code stderr
              (Some partial) Hout Hcdn Hkey Hlen Hdl Hdst Hff)
    as (s' & Hrun & Hfile & _).
  apply Z.eqb_neq in Hcode. rewrite Hcode in Hrun.
  exists s'. split; [exact Hrun |]. split; [exact Hfile |].
  rewrite process_original_found by (rewrite Hfile; eauto). reflexivity.
Qed.

Lemma process_original_failed_repack_stays_witness :
  exists s',
    process_original Cases.broken_studio Scenario.song Scenario.nothing =
      (Ok None, s') /\
    fs s' !! output_file Cases.broken_studio Scenario.song =
      Some (File (Bytes.of_string "Ogg")) /\
    fst (process_original Cases.broken_studio Scenario.song s') =
      Ok (Some (output_file Cases.broken_studio Scenario.song)).
Proof.
  apply (process_original_failed_repack_stays Cases.broken_studio
           Scenario.song Scenario.nothing Scenario.song_key Scenario.stream
           (Bytes.of_string "Ogg") 1 "Invalid data found");
    try reflexivity.
  - vm_compute. discriminate.
  - discriminate.
Defined.

(** X6: without an output file, a track that lacks a CDN URL or a key makes
    [process_original] return none at once: one warning in the trace, no
    network call, no file touched. *)
Theorem process_original_needs_url_and_key (w : World) (track : TrackInfo)
    (s : state) :
  fs s !! output_file w track = None ->
  Py.truthy_opt (Track.cdnurl track) && Py.truthy_opt (Track.key track)
    = false ->
  process_original w track s =
  (Ok None,
   {| fs := fs s;
      trace := trace s ++
        [EvLog WARNING "Missing CDN URL or key for track: %s"
           [Track.tc track]] |}).
Proof.
  intros Hout Hmissing. unfold process_original. run. rewrite Hout.
  destruct (Py.truthy_opt (Track.cdnurl track));
    [cbn in Hmissing; rewrite Hmissing |]; reflexivity.
Qed.

Lemma process_original_needs_url_and_key_witness :
  process_original Scenario.offline Cases.keyless_song Scenario.fetched =
  (Ok None,
   {| fs := fs Scenario.fetched;
      trace := trace Scenario.fetched ++
        [EvLog WARNING "Missing CDN URL or key for track: %s"
           [Track.tc Cases.keyless_song]] |}).
Proof.
  apply (process_original_needs_url_and_key Scenario.offline
           Cases.keyless_song Scenario.fetched); reflexivity.
Defined.

(** ** What the orchestrator lets out *)

(** X7: no exception leaves [download_track] or [process_original]:
    whatever the collaborators do, each returns a value. *)
Theorem download_track_never_raises (w : World) (track : option TrackInfo)
    (s : state) :
  (exists r s', download_track w track s = (Ok r, s')) /\
  (forall t, exists r s', process_original w t s = (Ok r, s')).
Proof.
  split; [| intros t; apply process_original_returns].
  destruct track as [track |]; [| now exists NoFile, s].
  unfold download_track. rewrite run_try_except.
  destruct (download_track_try w track s) as [[r | e] s1]; [eauto |].
  unfold download_track_except. rewrite run_bind. unfold log at 1, emit.
  destruct (is_spotify track); [| run; eauto].
  rewrite run_bind.
  destruct (process_original_returns w track
              {| fs := fs s1;
                 trace := trace s1 ++
                   [EvLog WARNING
                      "Error downloading track %s with new Spotify API: %s, falling back to original"
                      [Track.tc track; exn_str e]] |})
    as (r & s' & ->).
  run. eauto.
Qed.

(** X8: when the archive-based API answers a Spotify track with a file
    whose suffix is [.zip], in any case of letters, and the zip reader
    rejects it, [download_track] returns the empty list: there is no
    fallback to the legacy path, and the rejected file stays on disk. *)
Theorem download_track_bad_archive (w : World) (track : TrackInfo)
    (s : state) (url path : string) (data : list Z) :
  is_spotify track = true ->
  spotify_api_url track = Ok url ->
  download_file w url None = DlSaves path data ->
  Py.lower (Py.suffix path) = ".zip" ->
  zip_members w data = None ->
  download_track w (Some track) s =
  (Ok (Files []),
   {| fs := <[path := File data]> (fs s);
      trace := trace s ++
        [EvDownload url None; EvOpen path "rb";
         EvLog ERROR "Error extracting ZIP %s: %s"
           [path; exn_str (BadZipFile path)]] |}).
Proof.
  intros Hspotify Hurl Hdl Hsuffix Hzip.
  unfold download_track, download_track_try, download_spotify.
  rewrite Hspotify, Hurl. unfold client_download_file. run.
  rewrite Hdl. run. rewrite Hsuffix. cbn [String.eqb Ascii.eqb Bool.eqb].
  unfold _extract_zip. run. run. rewrite lookup_insert_eq. run.
  rewrite Hzip. run. now rewrite <- !app_assoc.
Qed.

Lemma download_track_bad_archive_witness :
  download_track Cases.bad_archive (Some Scenario.song) Scenario.nothing =
  (Ok (Files []),
   {| fs := <["downloads/api/tracks.ZIP" := File (Bytes.of_string "<html>")]>
              (fs Scenario.nothing);
      trace := trace Scenario.nothing ++
        [EvDownload
           "https://spotify-dl-ss6q.onrender.com/download/?url=https://open.spotify.com/track/4uLU6hMCjMI75M1A2tKUQC"
           None;
         EvOpen "downloads/api/tracks.ZIP" "rb";
         EvLog ERROR "Error extracting ZIP %s: %s"
           ["downloads/api/tracks.ZIP";
            exn_str (BadZipFile "downloads/api/tracks.ZIP")]] |}).
Proof.
  apply (download_track_bad_archive Cases.bad_archive Scenario.song
           Scenario.nothing); reflexivity.
Defined.

(** ** Lookup by URL *)

(** X9: for a query that is a recognised URL, [search] is [get_info]; an
    exception of the lookup at the new endpoint is caught and logged and
    [get_info] goes on to the legacy endpoint; when the new endpoint
    answers, [get_info] goes on to the legacy endpoint unless the answer is
    true, has the key [results] and parses. Unlike [search], it does not
    look into [results]: an empty list there gives none, without a legacy
    call. *)
Theorem get_info_falls_back (w : World) (self : ApiData) (q : string)
    (s : state) :
  query self = Some q ->
  Py.truthy q = true ->
  is_valid w self (Some q) = true ->
  let warned e s1 :=
    {| fs := fs s1;
       trace := trace s1 ++
         [EvLog WARNING "New get_info endpoint failed: %s" [exn_str e]] |} in
  let new_url := "https://spotify-dl-ss6q.onrender.com/search/?q=" +:+ q in
  search w self s = get_info w self s /\
  match client_make_request w new_url [] s with
  | (Raise e, s1) =>
      get_info w self s = get_info_legacy w self q (warned e s1)
  | (Ok data, s1) =>
      match get_info_condition data with
      | Ok true =>
          match _parse_tracks_response w data with
          | Ok r => get_info w self s = (Ok r, s1)
          | Raise e =>
              get_info w self s = get_info_legacy w self q (warned e s1)
          end
      | Ok false => get_info w self s = get_info_legacy w self q s1
      | Raise e => get_info w self s = get_info_legacy w self q (warned e s1)
      end
  end /\
  (forall items s1,
     client_make_request w new_url [] s = (Ok (JDict items), s1) ->
     PyVal.lookup "results" items = Some (JList []) ->
     get_info w self s = (Ok None, s1)).
Proof.
  intros Hq Hquery Hvalid warned new_url.
  assert (Hrun :
    match client_make_request w new_url [] s with
    | (Raise e, s1) =>
        get_info w self s = get_info_legacy w self q (warned e s1)
    | (Ok data, s1) =>
        match get_info_condition data with
        | Ok true =>
            match _parse_tracks_response w data with
            | Ok r => get_info w self s = (Ok r, s1)
            | Raise e =>
                get_info w self s = get_info_legacy w self q (warned e s1)
            end
        | Ok false => get_info w self s = get_info_legacy w self q s1
        | Raise e =>
            get_info w self s = get_info_legacy w self q (warned e s1)
        end
    end).
  { unfold get_info. rewrite Hq. change (default "" (Some q)) with q.
    cbn [Py.truthy_opt]. rewrite Hquery, Hvalid. cbn [negb orb].
    rewrite run_bind, run_try_except. unfold get_info_primary.
    fold new_url. rewrite run_bind.
    destruct (client_make_request w new_url [] s) as [[data | e] s1];
      [| reflexivity].
    rewrite run_bind. unfold lift at 1.
    destruct (get_info_condition data) as [[] | e]; [| reflexivity ..].
    rewrite run_bind. unfold lift at 1.
    destruct (_parse_tracks_response w data) as [r | e]; reflexivity. }
  split; [| split; [exact Hrun |]].
  - unfold search. rewrite Hq. cbn [Py.truthy_opt].
    now rewrite Hquery, Hvalid.
  - intros items s1 Hreq Hres. rewrite Hreq in Hrun.
    destruct items as [| item rest]; [discriminate Hres |].
    unfold get_info_condition in Hrun.
    cbn [PyVal.truthy PyVal.contains] in Hrun.
    rewrite (lookup_has_key _ _ _ Hres) in Hrun.
    rewrite (parse_tracks_response_list w _ _ Hres) in Hrun.
    exact Hrun.
Qed.

Lemma get_info_falls_back_witness :
  let warned e s1 :=
    {| fs := fs s1;
       trace := trace s1 ++
         [EvLog WARNING "New get_info endpoint failed: %s" [exn_str e]] |} in
  let q := "https://open.spotify.com/track/4uLU6hMCjMI75M1A2tKUQC" in
  let new_url := "https://spotify-dl-ss6q.onrender.com/search/?q=" +:+ q in
  search Cases.empty_catalogue Cases.url_lookup Scenario.nothing =
    get_info Cases.empty_catalogue Cases.url_lookup Scenario.nothing /\
  match client_make_request Cases.empty_catalogue new_url [] Scenario.nothing
  with
  | (Raise e, s1) =>
      get_info Cases.empty_catalogue Cases.url_lookup Scenario.nothing =
      get_info_legacy Cases.empty_catalogue Cases.url_lookup q (warned e s1)
  | (Ok data, s1) =>
      match get_info_condition data with
      | Ok true =>
          match _parse_tracks_response Cases.empty_catalogue data with
          | Ok r =>
              get_info Cases.empty_catalogue Cases.url_lookup Scenario.nothing
              = (Ok r, s1)
          | Raise e =>
              get_info Cases.empty_catalogue Cases.url_lookup Scenario.nothing
              = get_info_legacy Cases.empty_catalogue Cases.url_lookup q
                  (warned e s1)
          end
      | Ok false =>
          get_info Cases.empty_catalogue Cases.url_lookup Scenario.nothing =
          get_info_legacy Cases.empty_catalogue Cases.url_lookup q s1
      | Raise e =>
          get_info Cases.empty_catalogue Cases.url_lookup Scenario.nothing =
          get_info_legacy Cases.empty_catalogue Cases.url_lookup q
            (warned e s1)
      end
  end /\
  (forall items s1,
     client_make_request Cases.empty_catalogue new_url [] Scenario.nothing =
       (Ok (JDict items), s1) ->
     PyVal.lookup "results" items = Some (JList []) ->
     get_info Cases.empty_catalogue Cases.url_lookup Scenario.nothing =
       (Ok None, s1)).
Proof.
  apply (get_info_falls_back Cases.empty_catalogue Cases.url_lookup
           "https://open.spotify.com/track/4uLU6hMCjMI75M1A2tKUQC"
           Scenario.nothing); reflexivity.
Defined.

(** X10: with no legacy API configured, [search] never raises and never
    touches a file, and the only request it can make is the one to the new
    search endpoint. *)
Theorem search_without_legacy_api (w : World) (self : ApiData) (s : state) :
  Py.truthy_opt (api_url self) && Py.truthy_opt (api_key self) = false ->
  exists r evs,
    search w self s = (Ok r, {| fs := fs s; trace := trace s ++ evs |}) /\
    (forall url params,
       In (EvRequest url params) evs ->
       url = "https://spotify-dl-ss6q.onrender.com/search").
Proof.
  intros Hconf.
  assert (Hguard : negb (Py.truthy_opt (api_url self))
                   || negb (Py.truthy_opt (api_key self)) = true)
    by (destruct (Py.truthy_opt (api_url self)),
                 (Py.truthy_opt (api_key self)); auto; discriminate).
  assert (Hinvalid : forall u, is_valid w self u = false).
  { intros u. unfold is_valid. rewrite <- orb_assoc, Hguard.
    now rewrite orb_true_r. }
  assert (Hlegacy : forall q s1,
    search_legacy w self q s1 =
    (Ok None, {| fs := fs s1;
                 trace := trace s1 ++
                   [EvLog ERROR "API configuration missing" []] |})).
  { intros q s1. unfold search_legacy, _make_api_request. now rewrite Hguard. }
  unfold search. rewrite Hinvalid.
  destruct (Py.truthy_opt (query self)); cbn [negb].
  2:{ exists None, []. rewrite app_nil_r. split; [now destruct s |].
      intros url params []. }
  rewrite run_bind, run_try_except. unfold search_primary.
  rewrite run_bind. unfold client_make_request. run.
  set (new_search_url := "https://spotify-dl-ss6q.onrender.com/search").
  set (params := [("q", default "" (query self))]).
  assert (Hevs : forall evs url ps,
    In (EvRequest url ps) (EvRequest new_search_url params :: evs) ->
    Forall (fun ev => match ev with EvLog _ _ _ => True | _ => False end) evs ->
    url = new_search_url).
  { intros evs url ps [Heq | Hin] Hlogs; [now inversion Heq |].
    rewrite Forall_forall in Hlogs. apply list_elem_of_In in Hin.
    now apply Hlogs in Hin. }
  destruct (make_request w new_search_url params) as [response | e].
  - destruct (search_condition response) as [[] | e].
    + destruct (_parse_tracks_response w response) as [r | e].
      * exists r, [EvRequest new_search_url params].
        split; [reflexivity |]. intros url ps Hin.
        apply (Hevs [] url ps Hin). constructor.
      * rewrite Hlegacy. cbn [fs trace].
        eexists None, [_; _; _]. rewrite <- !app_assoc.
        split; [reflexivity |]. intros url ps Hin.
        apply (Hevs _ url ps Hin). repeat constructor.
    + rewrite Hlegacy. cbn [fs trace].
      eexists None, [_; _]. rewrite <- !app_assoc.
      split; [reflexivity |]. intros url ps Hin.
      apply (Hevs _ url ps Hin). repeat constructor.
    + rewrite Hlegacy. cbn [fs trace].
      eexists None, [_; _; _]. rewrite <- !app_assoc.
      split; [reflexivity |]. intros url ps Hin.
      apply (Hevs _ url ps Hin). repeat constructor.
  - rewrite Hlegacy. cbn [fs trace].
    eexists None, [_; _; _]. rewrite <- !app_assoc.
    split; [reflexivity |]. intros url ps Hin.
    apply (Hevs _ url ps Hin). repeat constructor.
Qed.

Lemma search_without_legacy_api_witness :
  exists r evs,
    search Scenario.offline Cases.unconfigured Scenario.nothing =
      (Ok r, {| fs := fs Scenario.nothing;
                trace := trace Scenario.nothing ++ evs |}) /\
    (forall url params,
       In (EvRequest url params) evs ->
       url = "https://spotify-dl-ss6q.onrender.com/search").
Proof.
  apply (search_without_legacy_api Scenario.offline Cases.unconfigured
           Scenario.nothing); reflexivity.
Defined.

(** ** Query sanitization *)

Lemma chars_app (a b : string) :
  list_ascii_of_string (a +:+ b) =
  list_ascii_of_string a ++ list_ascii_of_string b.
Proof.
  induction a as [| c a IH]; [reflexivity |].
  change (String c a +:+ b) with (String c (a +:+ b)).
  cbn [list_ascii_of_string app]. now rewrite IH.
Qed.

Lemma before_not_in sep l : ~ In sep (Chars.before sep l).
Proof.
  induction l as [| c l IH]; cbn; [tauto |].
  destruct (Ascii.eqb sep c) eqn:Heq; cbn; [tauto |].
  apply Ascii.eqb_neq in Heq. intros [H | H]; [congruence | tauto].
Qed.

Lemma before_incl sep l c : In c (Chars.before sep l) -> In c l.
Proof.
  induction l as [| d l IH]; cbn; [tauto |].
  destruct (Ascii.eqb sep d); cbn; tauto.
Qed.

Lemma before_app sep a l :
  ~ In sep a -> Chars.before sep (a ++ l) = a ++ Chars.before sep l.
Proof.
  induction a as [| c a IH]; intros Hsep; [reflexivity |].
  cbn [app Chars.before].
  destruct (Ascii.eqb sep c) eqn:Heq.
  - apply Ascii.eqb_eq in Heq. subst c. exfalso. apply Hsep. now left.
  - rewrite IH; [reflexivity |]. intros H. apply Hsep. now right.
Qed.

Lemma before_id sep a : ~ In sep a -> Chars.before sep a = a.
Proof.
  intros H. rewrite <- (app_nil_r a) at 1.
  rewrite before_app by exact H. cbn. apply app_nil_r.
Qed.

Lemma before_cut sep a l : ~ In sep a -> Chars.before sep (a ++ sep :: l) = a.
Proof.
  intros H. rewrite before_app by exact H. cbn [Chars.before].
  rewrite (proj2 (Ascii.eqb_eq sep sep) eq_refl). apply app_nil_r.
Qed.

Lemma rstrip_cons c l :
  Chars.isspace c = false -> Chars.rstrip (c :: l) = c :: Chars.rstrip l.
Proof. intros Hc. cbn [Chars.rstrip]. rewrite Hc. now destruct (Chars.rstrip l). Qed.

Lemma rstrip_app a b :
  Chars.rstrip b <> [] -> Chars.rstrip (a ++ b) = a ++ Chars.rstrip b.
Proof.
  intros Hb. induction a as [| c a IH]; [reflexivity |].
  cbn [app Chars.rstrip]. rewrite IH.
  destruct (a ++ Chars.rstrip b) eqn:Hab; [| reflexivity].
  apply app_eq_nil in Hab. tauto.
Qed.

Lemma length_rstrip l : (length (Chars.rstrip l) <= length l)%nat.
Proof.
  induction l as [| c l IH]; cbn [Chars.rstrip length]; [lia |].
  destruct (Chars.rstrip l); [destruct (Chars.isspace c) |]; cbn in *; lia.
Qed.

Lemma length_lstrip l : (length (Chars.lstrip l) <= length l)%nat.
Proof.
  induction l as [| c l IH]; cbn [Chars.lstrip length]; [lia |].
  destruct (Chars.isspace c); cbn [length]; lia.
Qed.

(** A text that [strip] leaves as it is does not start with white space,
    whatever follows it. *)
Lemma lstrip_app_stripped a l :
  Chars.strip a = a ->
  (forall c l', l = c :: l' -> Chars.isspace c = false) ->
  Chars.lstrip (a ++ l) = a ++ l.
Proof.
  intros Ha Hl. destruct a as [| c a].
  - destruct l as [| c l]; [reflexivity |].
    cbn [app Chars.lstrip]. now rewrite (Hl c l eq_refl).
  - cbn [app Chars.lstrip].
    destruct (Chars.isspace c) eqn:Hc; [| reflexivity].
    exfalso. unfold Chars.strip in Ha. cbn [Chars.lstrip] in Ha.
    rewrite Hc in Ha.
    pose proof (length_rstrip (Chars.lstrip a)) as H1.
    pose proof (length_lstrip a) as H2.
    rewrite Ha in H1. cbn [length] in H1. lia.
Qed.

Lemma rstrip_stripped a : Chars.strip a = a -> Chars.rstrip a = a.
Proof.
  intros Ha.
  rewrite <- (app_nil_r a) in Ha at 1.
  unfold Chars.strip in Ha.
  rewrite (lstrip_app_stripped a []) in Ha.
  - now rewrite app_nil_r in Ha.
  - unfold Chars.strip. now rewrite app_nil_r in Ha.
  - discriminate.
Qed.

(** What [strip] does to a stripped text followed by a character that is
    no white space and anything else. *)
Lemma strip_app_stripped a c l :
  Chars.strip a = a -> Chars.isspace c = false ->
  Chars.strip (a ++ c :: l) = a ++ c :: Chars.rstrip l.
Proof.
  intros Ha Hc. unfold Chars.strip.
  rewrite lstrip_app_stripped by
    (try exact Ha; intros c' l' Heq; now injection Heq as <- _).
  rewrite rstrip_app; rewrite rstrip_cons by exact Hc; [reflexivity |].
  discriminate.
Qed.

Lemma sanitize_chars q :
  list_ascii_of_string (_sanitize_query q) =
  Chars.before "#"
    (Chars.before "?" (Chars.strip (list_ascii_of_string q))).
Proof. apply list_ascii_of_string_of_list_ascii. Qed.

(** X11: an ASCII query that has neither [?] nor [#] and that [strip]
    leaves as it is comes out of [_sanitize_query] as it is, and so does the
    same query followed by [?] or by [#] and anything: tracking parameters
    and fragments do not change the sanitized query. A sanitized query
    never holds a [?] or a [#]. *)
Theorem sanitize_query_drops_parameters (base rest : string) :
  isascii base = true ->
  Chars.strip (list_ascii_of_string base) = list_ascii_of_string base ->
  ~ In "?"%char (list_ascii_of_string base) ->
  ~ In "#"%char (list_ascii_of_string base) ->
  _sanitize_query base = base /\
  _sanitize_query (base +:+ "?" +:+ rest) = base /\
  _sanitize_query (base +:+ "#" +:+ rest) = base /\
  (forall q, ~ In "?"%char (list_ascii_of_string (_sanitize_query q)) /\
             ~ In "#"%char (list_ascii_of_string (_sanitize_query q))).
Proof.
  intros _ Hstrip Hq Hh.
  set (a := list_ascii_of_string base) in *.
  assert (Hbase : string_of_list_ascii a = base)
    by apply string_of_list_ascii_of_string.
  split; [| split; [| split]].
  - unfold _sanitize_query. fold a.
    now rewrite Hstrip, (before_id "?" a Hq), (before_id "#" a Hh).
  - unfold _sanitize_query. rewrite !chars_app. fold a.
    cbn [list_ascii_of_string app].
    rewrite strip_app_stripped by (exact Hstrip || reflexivity).
    now rewrite before_cut, before_id.
  - unfold _sanitize_query. rewrite !chars_app. fold a.
    cbn [list_ascii_of_string app].
    rewrite strip_app_stripped by (exact Hstrip || reflexivity).
    rewrite before_app by exact Hq. cbn [Chars.before Ascii.eqb Bool.eqb].
    now rewrite before_cut.
  - intros q. rewrite sanitize_chars. split.
    + intros H. apply before_incl in H. now apply before_not_in in H.
    + apply before_not_in.
Qed.

Lemma sanitize_query_drops_parameters_witness :
  _sanitize_query "spotify.com/track/abc" = "spotify.com/track/abc" /\
  _sanitize_query ("spotify.com/track/abc" +:+ "?" +:+ "si=xyz#frag") =
    "spotify.com/track/abc" /\
  _sanitize_query ("spotify.com/track/abc" +:+ "#" +:+ "si=xyz#frag") =
    "spotify.com/track/abc" /\
  (forall q, ~ In "?"%char (list_ascii_of_string (_sanitize_query q)) /\
             ~ In "#"%char (list_ascii_of_string (_sanitize_query q))).
Proof.
  apply (sanitize_query_drops_parameters "spotify.com/track/abc"
           "si=xyz#frag").
  - reflexivity.
  - reflexivity.
  - cbn. intuition discriminate.
  - cbn. intuition discriminate.
Defined.

(** [_sanitize_query] is not idempotent: white space before a [?] is kept
    by the first pass and stripped by the second. *)
Example sanitize_query_twice :
  _sanitize_query "daft punk ?live" = "daft punk " /\
  _sanitize_query (_sanitize_query "daft punk ?live") = "daft punk".
Proof. split; reflexivity. Qed.

(** ** The request URL of the legacy API *)

Lemma rstrip_slash_app_slash l :
  Chars.rstrip_slash (l ++ ["/"%char]) = Chars.rstrip_slash l.
Proof.
  induction l as [| c l IH]; [reflexivity |].
  cbn [app Chars.rstrip_slash]. now rewrite IH.
Qed.

Lemma rstrip_slash_last l :
  List.last (Chars.rstrip_slash l) "a"%char <> "/"%char.
Proof.
  induction l as [| c l IH]; [discriminate |].
  cbn [Chars.rstrip_slash].
  destruct (Chars.rstrip_slash l) as [| d r'] eqn:Hr.
  - destruct (Ascii.eqb c "/") eqn:Hc; [discriminate |].
    apply Ascii.eqb_neq in Hc. exact Hc.
  - exact IH.
Qed.

Lemma lstrip_slash_head s :
  String.prefix "/" (Py.lstrip_slash s) = false.
Proof.
  induction s as [| c s IH]; [reflexivity |].
  cbn [Py.lstrip_slash].
  destruct c as [[] [] [] [] [] [] [] []]; try exact IH;
    cbn; destruct s; reflexivity.
Qed.

(** X12: the URL of a legacy request is the configured URL without the
    slashes it ends with, one slash, and the endpoint without the slashes it
    starts with. So a slash more at the end of [config.API_URL] or at the
    start of the endpoint changes nothing in what [_make_api_request]
    does. *)
Theorem make_api_request_joins_by_one_slash (w : World)
    (API_URL API_KEY q : option string) (endpoint : string)
    (params : list (string * string)) (s : state) :
  let self := ApiData_init API_URL API_KEY q in
  let base :=
    string_of_list_ascii
      (Chars.rstrip_slash (list_ascii_of_string (default "" API_URL))) in
  let ep := Py.lstrip_slash endpoint in
  (Py.truthy_opt (api_url self) && Py.truthy_opt (api_key self) = true ->
   _make_api_request w self endpoint params s =
     client_make_request w (base +:+ "/" +:+ ep) params s /\
   List.last (list_ascii_of_string base) "a"%char <> "/"%char /\
   String.prefix "/" ep = false) /\
  (forall u,
     _make_api_request w (ApiData_init (Some (u +:+ "/")) API_KEY q)
       ("/" +:+ endpoint) params s =
     _make_api_request w (ApiData_init (Some u) API_KEY q)
       endpoint params s).
Proof.
  intros self base ep. split.
  - intros Hconf. apply andb_prop in Hconf as [Hurl Hkey].
    unfold _make_api_request. rewrite Hurl, Hkey. cbn [negb orb].
    split; [| split; [| apply lstrip_slash_head]].
    + subst self. unfold ApiData_init in *. cbn [api_url] in *.
      destruct (Py.truthy_opt API_URL); [reflexivity | discriminate Hurl].
    + subst base. rewrite list_ascii_of_string_of_list_ascii.
      apply rstrip_slash_last.
  - intros u. unfold _make_api_request, ApiData_init. cbn [api_url api_key].
    change (Py.lstrip_slash ("/" +:+ endpoint)) with (Py.lstrip_slash endpoint).
    assert (Hnonempty : Py.truthy_opt (Some (u +:+ "/")) = true)
      by (destruct u; reflexivity).
    rewrite Hnonempty. cbn [default from_option id].
    rewrite chars_app, rstrip_slash_app_slash.
    destruct u as [| c u]; [| reflexivity].
    cbn. now destruct (Py.truthy_opt API_KEY).
Qed.

(** ** The URL patterns *)

(** *** The matcher and the strings of an expression *)


Lemma lang_nul s : ~ Re.lang Re.Nul s.
Proof. intros H. inversion H. Qed.

Lemma lang_eps_inv s : Re.lang Re.Eps s -> s = [].
Proof. intros H. now inversion H. Qed.

Lemma lang_cls_inv ranges s :
  Re.lang (Re.Cls ranges) s -> exists c, s = [c] /\ Re.in_class ranges c = true.
Proof. intros H. inversion H; subst. eauto. Qed.

Lemma lang_cat_inv a b s :
  Re.lang (Re.Cat a b) s ->
  exists s1 s2, s = s1 ++ s2 /\ Re.lang a s1 /\ Re.lang b s2.
Proof. intros H. inversion H; subst. eauto. Qed.

Lemma lang_alt_inv a b s : Re.lang (Re.Alt a b) s -> Re.lang a s \/ Re.lang b s.
Proof. intros H. inversion H; subst; tauto. Qed.

Lemma nullable_lang r : Re.nullable r = true <-> Re.lang r [].
Proof.
  induction r as [| | ranges | a IHa b IHb | a IHa b IHb | a IHa];
    cbn [Re.nullable].
  - split; [discriminate | intros H; inversion H].
  - split; [constructor | reflexivity].
  - split; [discriminate | intros H; inversion H].
  - rewrite andb_true_iff, IHa, IHb. split.
    + intros [Ha Hb]. change (@nil ascii) with (@nil ascii ++ []).
      now constructor.
    + intros H. apply lang_cat_inv in H as (s1 & s2 & Heq & H1 & H2).
      symmetry in Heq. apply app_eq_nil in Heq as [-> ->]. tauto.
  - rewrite orb_true_iff, IHa, IHb. split.
    + intros [H | H]; [now apply Re.lang_alt_l | now apply Re.lang_alt_r].
    + apply lang_alt_inv.
  - split; [constructor | reflexivity].
Qed.

Lemma cat_lang a b s : Re.lang (Re.cat a b) s <-> Re.lang (Re.Cat a b) s.
Proof.
  destruct a; cbn [Re.cat]; try tauto.
  split; intros H; [now apply lang_nul in H |].
  apply lang_cat_inv in H as (s1 & s2 & _ & H & _). now apply lang_nul in H.
Qed.

Lemma alt_lang a b s : Re.lang (Re.alt a b) s <-> Re.lang (Re.Alt a b) s.
Proof.
  assert (Hl : forall x, Re.lang (Re.Alt Re.Nul x) s <-> Re.lang x s).
  { intros x. split; intros H; [| now apply Re.lang_alt_r].
    apply lang_alt_inv in H as [H | H]; [now apply lang_nul in H | exact H]. }
  assert (Hr : forall x, Re.lang (Re.Alt x Re.Nul) s <-> Re.lang x s).
  { intros x. split; intros H; [| now apply Re.lang_alt_l].
    apply lang_alt_inv in H as [H | H]; [exact H | now apply lang_nul in H]. }
  destruct a; cbn [Re.alt]; try (symmetry; apply Hl);
    destruct b; try (symmetry; apply Hr); tauto.
Qed.

Lemma star_cons a c s :
  Re.lang (Re.Star a) (c :: s) ->
  exists s1 s2, s = s1 ++ s2 /\ Re.lang a (c :: s1) /\ Re.lang (Re.Star a) s2.
Proof.
  intros H. remember (Re.Star a) as r eqn:Hr. remember (c :: s) as t eqn:Ht.
  induction H as [| | | | | | a' s1 s2 H1 _ H2 IH2]; try discriminate.
  injection Hr as ->. destruct s1 as [| d s1].
  - apply IH2; [reflexivity | exact Ht].
  - injection Ht as -> <-. now exists s1, s2.
Qed.

Lemma cat_cons a b c s :
  Re.lang (Re.Cat a b) (c :: s) <->
  (Re.lang a [] /\ Re.lang b (c :: s)) \/
  exists s1 s2, s = s1 ++ s2 /\ Re.lang a (c :: s1) /\ Re.lang b s2.
Proof.
  split.
  - intros H. apply lang_cat_inv in H as (s1 & s2 & Heq & H1 & H2).
    destruct s1 as [| d s1].
    + left. cbn in Heq. subst s2. tauto.
    + right. injection Heq as -> ->. now exists s1, s2.
  - intros [[H1 H2] | (s1 & s2 & -> & H1 & H2)].
    + change (c :: s) with ([] ++ c :: s). now constructor.
    + change (c :: s1 ++ s2) with ((c :: s1) ++ s2). now constructor.
Qed.

Lemma deriv_lang r c s : Re.lang (Re.deriv c r) s <-> Re.lang r (c :: s).
Proof.
  revert s.
  induction r as [| | ranges | a IHa b IHb | a IHa b IHb | a IHa];
    intros s; cbn [Re.deriv].
  - split; intros H; inversion H.
  - split; intros H; inversion H.
  - destruct (Re.in_class ranges c) eqn:Hc.
    + split; intros H.
      * apply lang_eps_inv in H as ->. now constructor.
      * apply lang_cls_inv in H as (d & Heq & _). injection Heq as _ ->.
        constructor.
    + split; intros H; [now apply lang_nul in H |].
      apply lang_cls_inv in H as (d & Heq & Hd). injection Heq as -> _.
      congruence.
  - assert (Hcat : Re.lang (Re.cat (Re.deriv c a) b) s <->
                   exists s1 s2, s = s1 ++ s2 /\ Re.lang a (c :: s1) /\
                                 Re.lang b s2).
    { rewrite cat_lang. split.
      - intros H. apply lang_cat_inv in H as (s1 & s2 & -> & H1 & H2).
        exists s1, s2. rewrite <- IHa. tauto.
      - intros (s1 & s2 & -> & H1 & H2). constructor; [| exact H2].
        now apply IHa. }
    rewrite cat_cons. destruct (Re.nullable a) eqn:Hn.
    + rewrite alt_lang. apply nullable_lang in Hn. split.
      * intros H. apply lang_alt_inv in H as [H | H];
          [right; now apply Hcat |].
        left. split; [exact Hn | now apply IHb].
      * intros [[_ H] | H]; [apply Re.lang_alt_r; now apply IHb |].
        apply Re.lang_alt_l. now apply Hcat.
    + rewrite Hcat. split; [tauto |]. intros [[H _] | H]; [| exact H].
      apply nullable_lang in H. congruence.
  - rewrite alt_lang. split; intros H; apply lang_alt_inv in H as [H | H];
      (apply Re.lang_alt_l; now apply IHa) || (apply Re.lang_alt_r; now apply IHb).
  - rewrite cat_lang. split.
    + intros H. apply lang_cat_inv in H as (s1 & s2 & -> & H1 & H2).
      change (c :: s1 ++ s2) with ((c :: s1) ++ s2).
      constructor; [now apply IHa | exact H2].
    + intros H. apply star_cons in H as (s1 & s2 & -> & H1 & H2).
      constructor; [now apply IHa | exact H2].
Qed.

(** The matcher decides the language. *)
Lemma matches_lang r s : Re.matches r s = true <-> Re.lang r s.
Proof.
  revert r. induction s as [| c s IH]; intros r; cbn [Re.matches].
  - apply nullable_lang.
  - rewrite IH. apply deriv_lang.
Qed.

Lemma star_app a s1 s2 :
  Re.lang (Re.Star a) s1 -> Re.lang (Re.Star a) s2 ->
  Re.lang (Re.Star a) (s1 ++ s2).
Proof.
  intros H1 H2. remember (Re.Star a) as r eqn:Hr.
  induction H1 as [| | | | | | a' t1 t2 Ht1 _ Ht2 IH]; try discriminate.
  - exact H2.
  - injection Hr as ->. rewrite <- app_assoc. constructor; [exact Ht1 |].
    now apply IH.
Qed.

(** No string of an expression holds a character that none of its classes
    holds. *)
Lemma avoids_lang bad r s :
  Re.avoids bad r = true -> Re.lang r s ->
  forall c, In c s -> ~ In c bad.
Proof.
  intros Hav H. revert Hav.
  induction H as [| ranges d Hd | a b s1 s2 _ IH1 _ IH2 | a b s _ IH
                  | a b s _ IH | a | a s1 s2 _ IH1 _ IH2];
    cbn [Re.avoids]; intros Hav c Hc.
  - destruct Hc.
  - destruct Hc as [<- | []]. intros Hbad.
    rewrite forallb_forall in Hav. apply Hav in Hbad.
    rewrite Hd in Hbad. discriminate.
  - apply andb_prop in Hav as [Ha Hb].
    apply in_app_or in Hc as [Hc | Hc]; [now apply IH1 | now apply IH2].
  - apply andb_prop in Hav as [Ha Hb]. now apply IH.
  - apply andb_prop in Hav as [Ha Hb]. now apply IH.
  - destruct Hc.
  - apply in_app_or in Hc as [Hc | Hc]; [now apply IH1 | now apply IH2].
Qed.

Ltac each_char c :=
  destruct c as [[] [] [] [] [] [] [] []].

Lemma dot_class c :
  Re.in_class [(0, 9); (11, 255)]%nat c = negb (Ascii.eqb c Re.newline).
Proof. each_char c; reflexivity. Qed.

Lemma question_class c :
  Re.in_class [(63, 63)]%nat c = Ascii.eqb c "?".
Proof. each_char c; reflexivity. Qed.

Lemma lang_dot_star s : Re.lang (Re.Star re_dot) s <-> ~ In Re.newline s.
Proof.
  split.
  - intros H. remember (Re.Star re_dot) as r eqn:Hr.
    induction H as [| | | | | | a s1 s2 H1 _ H2 IH]; try discriminate.
    + intros [].
    + injection Hr as ->. intros Hin. apply in_app_or in Hin as [Hin | Hin].
      * apply lang_cls_inv in H1 as (c & -> & Hc).
        destruct Hin as [-> | []]. rewrite dot_class in Hc. discriminate.
      * now apply IH.
  - induction s as [| c s IH]; intros Hs; [constructor |].
    change (c :: s) with ([c] ++ s). constructor.
    + constructor. rewrite dot_class.
      destruct (Ascii.eqb c Re.newline) eqn:Hc; [| reflexivity].
      apply Ascii.eqb_eq in Hc. exfalso. apply Hs. now left.
    + apply IH. intros H. apply Hs. now right.
Qed.

Lemma lang_query s :
  Re.lang re_query s <->
  s = [] \/ exists t, s = "?"%char :: t /\ ~ In Re.newline t.
Proof.
  unfold re_query, Re.Opt. cbn [Re.Lit]. split.
  - intros H. apply lang_alt_inv in H as [H | H].
    + left. now apply lang_eps_inv.
    + right. apply lang_cat_inv in H as (s1 & t & -> & H1 & H2).
      apply lang_cat_inv in H1 as (q & e & -> & Hq & He).
      apply lang_eps_inv in He as ->.
      apply lang_cls_inv in Hq as (c & -> & Hc).
      change (nat_of_ascii "?") with 63%nat in Hc.
      rewrite question_class in Hc. apply Ascii.eqb_eq in Hc as ->.
      exists t. split; [reflexivity | now apply lang_dot_star].
  - intros [-> | (t & -> & Ht)].
    + apply Re.lang_alt_l. constructor.
    + apply Re.lang_alt_r. change ("?"%char :: t) with (["?"%char] ++ t).
      constructor; [| now apply lang_dot_star].
      change ["?"%char] with (["?"%char] ++ []).
      constructor; constructor. reflexivity.
Qed.

Lemma lang_url_pattern base s :
  Re.lang (url_pattern base) s <->
  exists pre rest,
    s = pre ++ rest /\ Re.lang (Re.Cat (Re.Opt re_scheme) base) pre /\
    (rest = [] \/ exists t, rest = "?"%char :: t /\ ~ In Re.newline t).
Proof.
  unfold url_pattern. split.
  - intros H. apply lang_cat_inv in H as (pre & rest & -> & H1 & H2).
    exists pre, rest. rewrite <- lang_query. tauto.
  - intros (pre & rest & -> & H1 & H2). constructor; [exact H1 |].
    now apply lang_query.
Qed.

Lemma py_match_lang r s :
  Re.py_match r s = true <->
  Re.lang r s \/ exists t, s = t ++ [Re.newline] /\ Re.lang r t.
Proof.
  unfold Re.py_match. rewrite orb_true_iff, matches_lang.
  destruct (rev s) as [| c t] eqn:Hrev.
  - split; [intros [H | H]; [tauto | discriminate] |].
    intros [H | (t & -> & _)]; [tauto |].
    rewrite rev_app_distr in Hrev. discriminate.
  - rewrite andb_true_iff, matches_lang.
    assert (Hs : s = rev t ++ [c])
      by (rewrite <- (rev_involutive s), Hrev; reflexivity).
    split.
    + intros [H | [Hc H]]; [tauto |]. right.
      apply Ascii.eqb_eq in Hc as ->. now exists (rev t).
    + intros [H | (u & Hu & H)]; [tauto |]. right. rewrite Hs in Hu.
      apply app_inj_tail in Hu as [<- ->].
      split; [apply Ascii.eqb_refl | exact H].
Qed.

(** *** Valid URLs and [_sanitize_query] *)

Lemma in_stops c :
  In c stops <->
  Chars.isspace c || Ascii.eqb c "?" || Ascii.eqb c "#" = true.
Proof.
  unfold stops. rewrite filter_In. split; [tauto |]. intros H.
  split; [| exact H]. apply in_map_iff. exists (nat_of_ascii c).
  split; [apply ascii_nat_embedding |].
  apply in_seq. pose proof (nat_ascii_bounded c). lia.
Qed.

(** What comes before the query string in a URL that a pattern matches:
    it is not empty and it holds no white space, no [?] and no [#]. *)
Lemma URL_PATTERNS_heads :
  Forall (fun p => exists base,
            snd p = url_pattern base /\
            Re.avoids stops (Re.Cat (Re.Opt re_scheme) base) = true /\
            Re.nullable (Re.Cat (Re.Opt re_scheme) base) = false)
    URL_PATTERNS.
Proof.
  unfold URL_PATTERNS.
  repeat constructor; eexists; (split; [reflexivity |]);
    split; vm_compute; reflexivity.
Qed.

Lemma rstrip_spaces t :
  forallb Chars.isspace t = true -> Chars.rstrip t = [].
Proof.
  induction t as [| c t IH]; [reflexivity |]. cbn [forallb Chars.rstrip].
  intros H. apply andb_prop in H as [Hc Ht]. now rewrite IH, Hc.
Qed.

Lemma rstrip_app_spaces a t :
  forallb Chars.isspace t = true -> Chars.rstrip (a ++ t) = Chars.rstrip a.
Proof.
  intros Ht. induction a as [| c a IH]; cbn [app].
  - now apply rstrip_spaces.
  - cbn [Chars.rstrip]. now rewrite IH.
Qed.

Lemma rstrip_clean l :
  (forall c, In c l -> Chars.isspace c = false) -> Chars.rstrip l = l.
Proof.
  induction l as [| c l IH]; intros Hl; [reflexivity |].
  cbn [Chars.rstrip]. rewrite IH by (intros d Hd; apply Hl; now right).
  destruct l; [| reflexivity]. rewrite Hl; [reflexivity | now left].
Qed.

Lemma strip_clean l :
  (forall c, In c l -> Chars.isspace c = false) -> Chars.strip l = l.
Proof.
  intros Hl. unfold Chars.strip.
  replace (Chars.lstrip l) with l; [now apply rstrip_clean |].
  destruct l as [| c l]; [reflexivity |]. cbn [Chars.lstrip].
  rewrite Hl; [reflexivity | now left].
Qed.

Lemma strip_app_spaces a t :
  a <> [] -> (forall c, In c a -> Chars.isspace c = false) ->
  forallb Chars.isspace t = true -> Chars.strip (a ++ t) = a.
Proof.
  intros Ha Hclean Ht. unfold Chars.strip.
  destruct a as [| c a]; [congruence |].
  cbn [app Chars.lstrip]. rewrite Hclean by now left.
  change (c :: a ++ t) with ((c :: a) ++ t).
  rewrite rstrip_app_spaces by exact Ht. now apply rstrip_clean.
Qed.

(** What [_sanitize_query] makes of a text without white space, [?] or
    [#], followed by nothing or by a query string, and then by nothing or
    by white space. *)
Lemma sanitize_head pre rest tail :
  pre <> [] -> (forall c, In c pre -> ~ In c stops) ->
  rest = [] \/ (exists t, rest = "?"%char :: t) ->
  forallb Chars.isspace tail = true ->
  Chars.before "#" (Chars.before "?" (Chars.strip (pre ++ rest ++ tail))) = pre.
Proof.
  intros Hne Hpre Hrest Htail.
  assert (Hstop : forall c, In c pre ->
            Chars.isspace c = false /\ c <> "?"%char /\ c <> "#"%char).
  { intros c Hc. apply Hpre in Hc. rewrite in_stops in Hc.
    destruct (Chars.isspace c); [now destruct Hc |].
    split; [reflexivity |].
    split; intros ->; apply Hc; reflexivity. }
  assert (Hspace : forall c, In c pre -> Chars.isspace c = false)
    by (intros c Hc; now apply Hstop).
  assert (Hq : ~ In "?"%char pre)
    by (intros H; apply Hstop in H; tauto).
  assert (Hh : ~ In "#"%char pre)
    by (intros H; apply Hstop in H; tauto).
  destruct Hrest as [-> | [t ->]].
  - cbn [app]. rewrite strip_app_spaces by assumption.
    now rewrite (before_id "?" pre Hq), (before_id "#" pre Hh).
  - cbn [app].
    rewrite strip_app_stripped by (try reflexivity; now apply strip_clean).
    rewrite before_cut by exact Hq. now apply before_id.
Qed.

(** A URL that a pattern matches, taken apart. *)
Lemma URL_PATTERNS_match_parts url :
  URL_PATTERNS_match url = true <->
  exists p pre rest tail,
    In p URL_PATTERNS /\
    list_ascii_of_string url = pre ++ rest ++ tail /\
    (exists base, snd p = url_pattern base /\
       Re.lang (Re.Cat (Re.Opt re_scheme) base) pre) /\
    (rest = [] \/ exists t, rest = "?"%char :: t /\ ~ In Re.newline t) /\
    (tail = [] \/ tail = [Re.newline]).
Proof.
  unfold URL_PATTERNS_match. rewrite existsb_exists. split.
  - intros (p & Hp & Hm). exists p.
    pose proof URL_PATTERNS_heads as Hheads.
    rewrite List.Forall_forall in Hheads.
    destruct (Hheads p Hp) as (base & Hbase & _).
    rewrite Hbase in Hm. apply py_match_lang in Hm.
    destruct Hm as [H | (u & Hu & H)];
      apply lang_url_pattern in H as (pre & rest & Heq & Hpre & Hrest).
    + exists pre, rest, []. rewrite app_nil_r. eauto 10.
    + exists pre, rest, [Re.newline]. subst u. rewrite app_assoc. eauto 10.
  - intros (p & pre & rest & tail & Hp & Heq & (base & Hbase & Hpre) &
            Hrest & Htail).
    exists p. split; [exact Hp |]. rewrite Hbase, Heq.
    apply py_match_lang.
    assert (H : Re.lang (url_pattern base) (pre ++ rest))
      by (apply lang_url_pattern; eauto 10).
    destruct Htail as [-> | ->].
    + left. now rewrite app_nil_r.
    + right. exists (pre ++ rest). now rewrite app_assoc.
Qed.

Lemma head_clean p base pre :
  In p URL_PATTERNS -> snd p = url_pattern base ->
  Re.lang (Re.Cat (Re.Opt re_scheme) base) pre ->
  pre <> [] /\ forall c, In c pre -> ~ In c stops.
Proof.
  intros Hp Hbase Hpre.
  pose proof URL_PATTERNS_heads as Hheads.
  rewrite List.Forall_forall in Hheads.
  destruct (Hheads p Hp) as (base' & Hbase' & Hav & Hnull).
  rewrite Hbase in Hbase'.
  assert (base' = base) as -> by (unfold url_pattern in Hbase'; congruence).
  split.
  - intros ->. apply nullable_lang in Hpre. congruence.
  - now apply avoids_lang with (r := Re.Cat (Re.Opt re_scheme) base).
Qed.

Lemma truthy_chars s : Py.truthy s = true <-> list_ascii_of_string s <> [].
Proof. destruct s; cbn; split; congruence. Qed.

Lemma is_valid_with_re w self url :
  is_valid (with_re w) self (Some url) = true <->
  Py.truthy_opt (api_url self) = true /\ Py.truthy_opt (api_key self) = true /\
  URL_PATTERNS_match url = true.
Proof.
  unfold is_valid. cbn [Py.truthy_opt default from_option id with_re
                        url_pattern_match].
  destruct (Py.truthy_opt (api_url self)), (Py.truthy_opt (api_key self));
    rewrite ?orb_true_r; cbn [negb orb]; try (split; [discriminate | tauto]).
  destruct (Py.truthy url) eqn:Ht; cbn [negb]; [tauto |].
  split; [discriminate |]. intros (_ & _ & H). exfalso.
  destruct url; [vm_compute in H |]; discriminate.
Qed.

Lemma valid_sanitized (w : World) (self : ApiData) (url : string) :
  is_valid (with_re w) self (Some url) = true ->
  is_valid (with_re w) self (Some (_sanitize_query url)) = true /\
  _sanitize_query (_sanitize_query url) = _sanitize_query url /\
  exists rest, url = _sanitize_query url +:+ rest.
Proof.
  intros Hvalid. apply is_valid_with_re in Hvalid as (Hurl & Hkey & Hm).
  apply URL_PATTERNS_match_parts in Hm
    as (p & pre & rest & tail & Hp & Heq & (base & Hbase & Hpre) &
        Hrest & Htail).
  destruct (head_clean p base pre Hp Hbase Hpre) as [Hne Hclean].
  assert (Hs : _sanitize_query url = string_of_list_ascii pre).
  { unfold _sanitize_query. rewrite Heq. f_equal.
    apply sanitize_head; try assumption.
    - destruct Hrest as [-> | (t & -> & _)]; eauto.
    - destruct Htail as [-> | ->]; reflexivity. }
  rewrite Hs. split; [| split].
  - apply is_valid_with_re. split; [exact Hurl |]. split; [exact Hkey |].
    apply URL_PATTERNS_match_parts. exists p, pre, [], [].
    rewrite list_ascii_of_string_of_list_ascii, !app_nil_r. eauto 10.
  - unfold _sanitize_query. f_equal.
    rewrite list_ascii_of_string_of_list_ascii.
    rewrite <- (app_nil_r pre) at 1. rewrite <- (app_nil_r (pre ++ [])).
    rewrite <- app_assoc. apply sanitize_head; auto.
  - exists (string_of_list_ascii (rest ++ tail)).
    rewrite <- (string_of_list_ascii_of_string url), Heq.
    generalize (rest ++ tail). intros l. clear.
    induction pre as [| c pre IH]; [reflexivity |]. cbn. now rewrite IH.
Qed.

(** X13: an ASCII URL that [is_valid] accepts is still accepted once
    [_sanitize_query] has been applied to it; the sanitized URL is what the
    URL starts with, and sanitizing it again changes nothing (which is not
    so of every query). *)
Theorem is_valid_survives_sanitize (w : World) (self : ApiData)
    (url : string) :
  isascii url = true ->
  is_valid (with_re w) self (Some url) = true ->
  is_valid (with_re w) self (Some (_sanitize_query url)) = true /\
  _sanitize_query (_sanitize_query url) = _sanitize_query url /\
  exists rest, url = _sanitize_query url +:+ rest.
Proof. intros _. apply valid_sanitized. Qed.

Lemma is_valid_survives_sanitize_witness :
  is_valid (with_re Scenario.offline) Cases.url_lookup
    (Some (_sanitize_query Cases.shared_link)) = true /\
  _sanitize_query (_sanitize_query Cases.shared_link) =
    _sanitize_query Cases.shared_link /\
  exists rest, Cases.shared_link = _sanitize_query Cases.shared_link +:+ rest.
Proof.
  apply (is_valid_survives_sanitize Scenario.offline Cases.url_lookup
           Cases.shared_link); vm_compute; reflexivity.
Defined.

(** X14: an object made for a URL that [is_valid] accepts holds the URL
    without its query string, and [search] on it is [get_info] on the
    object made for that shorter URL: a link with tracking parameters is
    looked up as the link without them. *)
Theorem search_looks_up_the_bare_link (w : World)
    (API_URL API_KEY : option string) (link : string) (s : state) :
  isascii link = true ->
  is_valid (with_re w) (ApiData_init API_URL API_KEY None) (Some link)
    = true ->
  let self := ApiData_init API_URL API_KEY (Some link) in
  let bare := ApiData_init API_URL API_KEY (Some (_sanitize_query link)) in
  query self = Some (_sanitize_query link) /\
  self = bare /\
  search (with_re w) self s = get_info (with_re w) bare s.
Proof.
  intros _ Hvalid self bare.
  destruct (valid_sanitized w _ link Hvalid) as (Hsan & Hidem & _).
  assert (Hlink : Py.truthy link = true).
  { unfold is_valid in Hvalid. cbn [Py.truthy_opt] in Hvalid.
    destruct (Py.truthy link); [reflexivity | discriminate Hvalid]. }
  assert (Hbare : Py.truthy (_sanitize_query link) = true).
  { unfold is_valid in Hsan. cbn [Py.truthy_opt] in Hsan.
    destruct (Py.truthy (_sanitize_query link));
      [reflexivity | discriminate Hsan]. }
  assert (Hq : query self = Some (_sanitize_query link)).
  { subst self. unfold ApiData_init. cbn [query Py.truthy_opt].
    now rewrite Hlink. }
  assert (Hself : self = bare).
  { subst self bare. unfold ApiData_init. cbn [Py.truthy_opt].
    rewrite Hlink, Hbare. cbn [default from_option id]. now rewrite Hidem. }
  split; [exact Hq |]. split; [exact Hself |].
  rewrite <- Hself. unfold search. rewrite Hq. cbn [Py.truthy_opt].
  rewrite Hbare. cbn [negb].
  assert (Hv : is_valid (with_re w) self (Some (_sanitize_query link)) = true)
    by exact Hsan.
  now rewrite Hv.
Qed.

Lemma search_looks_up_the_bare_link_witness :
  let self :=
    ApiData_init (Some "https://api.example/") (Some "secret")
      (Some Cases.shared_link) in
  let bare :=
    ApiData_init (Some "https://api.example/") (Some "secret")
      (Some (_sanitize_query Cases.shared_link)) in
  query self = Some (_sanitize_query Cases.shared_link) /\
  self = bare /\
  search (with_re Scenario.offline) self Scenario.nothing =
    get_info (with_re Scenario.offline) bare Scenario.nothing.
Proof.
  apply (search_looks_up_the_bare_link Scenario.offline
           (Some "https://api.example/") (Some "secret") Cases.shared_link
           Scenario.nothing); vm_compute; reflexivity.
Defined.

(** *** Case *)

Lemma in_class_lower ranges c :
  Re.in_class ranges (Py.lower_ascii c) = Re.in_class ranges c.
Proof.
  unfold Re.in_class.
  assert (H : Py.lower_ascii c = c \/
              (Py.lower_ascii (Py.lower_ascii c) = Py.lower_ascii c /\
               Re.upper_ascii (Py.lower_ascii c) = c /\
               Re.upper_ascii c = c))
    by (each_char c; vm_compute; tauto).
  destruct H as [H | (H1 & H2 & H3)]; [now rewrite !H |].
  rewrite H1, H2, H3.
  destruct (Re.in_ranges ranges c), (Re.in_ranges ranges (Py.lower_ascii c));
    reflexivity.
Qed.

Lemma deriv_lower c r : Re.deriv (Py.lower_ascii c) r = Re.deriv c r.
Proof.
  induction r as [| | ranges | a IHa b IHb | a IHa b IHb | a IHa];
    cbn [Re.deriv]; rewrite ?in_class_lower, ?IHa, ?IHb; reflexivity.
Qed.

Lemma matches_lower r s : Re.matches r (map Py.lower_ascii s) = Re.matches r s.
Proof.
  revert r. induction s as [| c s IH]; intros r; [reflexivity |].
  cbn [map Re.matches]. now rewrite deriv_lower, IH.
Qed.

Lemma py_match_lower r s :
  Re.py_match r (map Py.lower_ascii s) = Re.py_match r s.
Proof.
  unfold Re.py_match. rewrite matches_lower, <- map_rev.
  destruct (rev s) as [| c t]; [reflexivity |]. cbn [map].
  rewrite <- map_rev, matches_lower. f_equal. f_equal.
  each_char c; reflexivity.
Qed.

Lemma chars_lower s :
  list_ascii_of_string (Py.lower s) =
  map Py.lower_ascii (list_ascii_of_string s).
Proof. induction s as [| c s IH]; cbn; [reflexivity | now rewrite IH]. Qed.

Lemma URL_PATTERNS_match_lower url :
  URL_PATTERNS_match (Py.lower url) = URL_PATTERNS_match url.
Proof.
  unfold URL_PATTERNS_match. rewrite chars_lower.
  induction URL_PATTERNS as [| p l IH]; [reflexivity |].
  cbn [existsb]. now rewrite py_match_lower, IH.
Qed.

Lemma is_valid_lower w self url :
  is_valid (with_re w) self (Some (Py.lower url)) =
  is_valid (with_re w) self (Some url).
Proof.
  unfold is_valid. cbn [Py.truthy_opt default from_option id with_re
                        url_pattern_match].
  rewrite URL_PATTERNS_match_lower. now destruct url.
Qed.

(** X15: two ASCII URLs that differ by the case of their letters only are
    both accepted by [is_valid] or both refused. *)
Theorem is_valid_ignores_case (w : World) (self : ApiData) (a b : string) :
  isascii a = true -> isascii b = true ->
  Py.lower a = Py.lower b ->
  is_valid (with_re w) self (Some a) = is_valid (with_re w) self (Some b).
Proof.
  intros _ _ Heq.
  now rewrite <- (is_valid_lower w self a), Heq, is_valid_lower.
Qed.

Lemma is_valid_ignores_case_witness :
  is_valid (with_re Scenario.offline) Cases.url_lookup
    (Some Cases.typed_link) =
  is_valid (with_re Scenario.offline) Cases.url_lookup
    (Some (Py.lower Cases.typed_link)).
Proof.
  apply (is_valid_ignores_case Scenario.offline Cases.url_lookup
           Cases.typed_link (Py.lower Cases.typed_link)); reflexivity.
Defined.

(** *** Query strings and fragments *)

(** X16: an ASCII URL without a newline that [is_valid] accepts is still
    accepted with a [?] and any text without a newline after it. *)
Theorem is_valid_with_query_string (w : World) (self : ApiData)
    (url rest : string) :
  isascii url = true ->
  ~ In Re.newline (list_ascii_of_string url) ->
  ~ In Re.newline (list_ascii_of_string rest) ->
  is_valid (with_re w) self (Some url) = true ->
  is_valid (with_re w) self (Some (url +:+ "?" +:+ rest)) = true.
Proof.
  intros _ Hurl Hrest Hvalid.
  apply is_valid_with_re in Hvalid as (Hu & Hk & Hm).
  apply is_valid_with_re. split; [exact Hu |]. split; [exact Hk |].
  apply URL_PATTERNS_match_parts in Hm
    as (p & pre & r0 & tail & Hp & Heq & Hbase & Hr0 & Htail).
  destruct Htail as [-> | ->];
    [| exfalso; apply Hurl; rewrite Heq, !in_app_iff; cbn; tauto].
  rewrite app_nil_r in Heq.
  apply URL_PATTERNS_match_parts.
  exists p, pre, (r0 ++ "?"%char :: list_ascii_of_string rest), [].
  split; [exact Hp |]. split; [| split; [exact Hbase |]].
  - rewrite !chars_app, Heq, app_nil_r, <- app_assoc. reflexivity.
  - split; [| now left]. right.
    destruct Hr0 as [-> | (t & -> & Ht)].
    + now exists (list_ascii_of_string rest).
    + exists (t ++ "?"%char :: list_ascii_of_string rest).
      split; [reflexivity |]. rewrite in_app_iff. cbn [In].
      intros [H | [H | H]]; [tauto | discriminate H | tauto].
Qed.

Lemma is_valid_with_query_string_witness :
  is_valid (with_re Scenario.offline) Cases.url_lookup
    (Some (Cases.typed_link +:+ "?" +:+ "si=0a1b2c3d&utm_source=copy")) = true.
Proof.
  apply (is_valid_with_query_string Scenario.offline Cases.url_lookup
           Cases.typed_link "si=0a1b2c3d&utm_source=copy");
    try reflexivity; cbn; intuition discriminate.
Defined.

(** X17: [is_valid] refuses every ASCII URL that has a [#] before any [?]: a
    fragment is accepted inside a query string only. ([_sanitize_query]
    removes it before [get_info] and [search] ask.) *)
Theorem is_valid_rejects_fragment (w : World) (self : ApiData)
    (url rest : string) :
  isascii url = true ->
  ~ In "?"%char (list_ascii_of_string url) ->
  is_valid (with_re w) self (Some (url +:+ "#" +:+ rest)) = false.
Proof.
  intros _ Hq.
  destruct (is_valid (with_re w) self (Some (url +:+ "#" +:+ rest)))
    eqn:Hvalid; [exfalso | reflexivity].
  apply is_valid_with_re in Hvalid as (_ & _ & Hm).
  apply URL_PATTERNS_match_parts in Hm
    as (p & pre & r0 & tail & Hp & Heq & (base & Hbase & Hpre) & Hr0 & Htail).
  destruct (head_clean p base pre Hp Hbase Hpre) as [_ Hclean].
  rewrite !chars_app in Heq. cbn [list_ascii_of_string app] in Heq.
  set (u := list_ascii_of_string url) in *.
  set (r := list_ascii_of_string rest) in *. clearbody u r.
  assert (Hhash : ~ In "#"%char pre).
  { intros H. apply (Hclean _ H). apply in_stops. reflexivity. }
  clear Hclean Hpre Hbase Hp.
  revert u Hq Heq. induction pre as [| c pre IH]; intros u Hq Heq.
  - cbn [app] in Heq. destruct Hr0 as [-> | (t & -> & Ht)].
    + destruct Htail as [-> | ->]; cbn [app] in Heq.
      * destruct u; discriminate.
      * destruct u as [| d [| e u]]; discriminate.
    + destruct u as [| d u]; [discriminate |].
      injection Heq as Hd _. apply Hq. left. now symmetry.
  - destruct u as [| d u].
    + injection Heq as Hc _. apply Hhash. left. now symmetry.
    + injection Heq as _ Heq.
      apply (IH (fun H => Hhash (or_intror H)) u); [| exact Heq].
      intros H. apply Hq. now right.
Qed.

Lemma is_valid_rejects_fragment_witness :
  is_valid (with_re Scenario.offline) Cases.url_lookup
    (Some (Cases.typed_link +:+ "#" +:+ "t=42")) = false.
Proof.
  apply (is_valid_rejects_fragment Scenario.offline Cases.url_lookup
           Cases.typed_link "t=42"); [reflexivity |].
  cbn. intuition discriminate.
Defined.
